(** * matrix-indexer: event ingestion and synchronisation pipeline

    A shallow embedding of [indexer.py] and [backfill.py]: the bounded
    [EventCache], the serializer, the MongoDB upsert path, the sync loop
    with its state file, and the paginated backfill walker.

    Python objects are embedded as follows.
    - An attribute of a duck-typed event object is an [attr]: the
      attribute may be missing ([hasattr] is false), hold [None], or hold
      a value of the type the protocol client declares for it.
    - A [dict] whose order matters ([OrderedDict], a MongoDB collection in
      natural order) is a list; [d[k] = v] and [replace_one(.., upsert=True)]
      are both "overwrite the first entry with that key, else append".
    - Side effects are threaded through a [world] by a state-and-exception
      monad; every externally visible effect is also appended to a log, so
      that orderings between effects can be stated. *)

From Stdlib Require Import String ZArith QArith Bool List Lia.
Import ListNotations.

Local Open Scope string_scope.
Local Open Scope list_scope.
Local Open Scope Z_scope.

Set Implicit Arguments.

(** ** Lists keyed by a projection *)

Section KeyedList.
Variables A K : Type.
Variable key : A -> K.
Variable K_eqb : K -> K -> bool.

(** Overwrite in place the first entry carrying the key of [a]; append
    [a] when no entry carries it. *)
Fixpoint upsert (a : A) (l : list A) : list A :=
  match l with
  | [] => [a]
  | x :: l' => if K_eqb (key x) (key a) then a :: l' else x :: upsert a l'
  end.

Fixpoint find_key (k : K) (l : list A) : option A :=
  match l with
  | [] => None
  | x :: l' => if K_eqb (key x) k then Some x else find_key k l'
  end.

Definition has_key (k : K) (l : list A) : bool :=
  match find_key k l with Some _ => true | None => false end.

Definition upsert_all (l : list A) (xs : list A) : list A :=
  fold_left (fun acc a => upsert a acc) xs l.

Definition keys (l : list A) : list K := map key l.

End KeyedList.

(** ** Python values *)

(** An attribute of a duck-typed object: [hasattr] is false on [Missing];
    [IsNone] is an attribute holding [None]. *)
Inductive attr (A : Type) : Type :=
| Missing
| IsNone
| Has (a : A).
Arguments Missing {A}.
Arguments IsNone {A}.
Arguments Has {A} a.

Definition hasattr {A} (x : attr A) : bool :=
  match x with Missing => false | _ => true end.

(** [getattr(obj, name, default)]; Python's [None] is Rocq's [None]. *)
Definition getattr {A} (x : attr A) (default : option A) : option A :=
  match x with
  | Missing => default
  | IsNone => None
  | Has a => Some a
  end.

(** Truth value of a [str]-typed attribute that is present. *)
Definition truthy_str (x : attr string) : bool :=
  match x with
  | Has s => negb (String.eqb s EmptyString)
  | _ => false
  end.

(** Structured payloads ([source], [content]). *)
#[local] Set Warnings "-register-all".
Inductive json : Type :=
| JNull
| JBool (b : bool)
| JInt (z : Z)
| JStr (s : string)
| JList (l : list json)
| JDict (kvs : list (string * json)).

Definition json_of_str (o : option string) : json :=
  match o with Some s => JStr s | None => JNull end.

Definition json_or_null (o : option json) : json :=
  match o with Some j => j | None => JNull end.

Definition isinstance_dict (j : json) : bool :=
  match j with JDict _ => true | _ => false end.

Inductive exn : Type :=
| AttributeError
| TypeError
| ValueError
| NetworkError
| StorageError
| OSError.

(** ** Events and stored documents *)

(** A protocol event as the client hands it over.  [ev_is_text] is
    [isinstance(event, RoomMessageText)]. *)
Record raw_event : Type := {
  ev_is_text : bool;
  ev_event_id : attr string;
  ev_room_id : attr string;
  ev_sender : attr string;
  ev_type : attr string;
  ev_origin_server_ts : attr Z;
  ev_timestamp : attr Z;
  ev_source : attr json;
  ev_content : attr json;
  ev_body : attr string;
  ev_msgtype : attr string
}.

(** The dict written to MongoDB.  A field holding Python's [None] is
    [None]; [backfilled] is [false] for the documents of the sync path,
    which carry no such key. *)
Record doc : Type := {
  event_id : option string;
  room_id : option string;
  sender : option string;
  type : option string;
  origin_server_ts : option Z;
  timestamp : Z;
  source : json;
  content : json;
  backfilled : bool
}.

Definition id_eqb (x y : option string) : bool :=
  match x, y with
  | Some a, Some b => String.eqb a b
  | None, None => true
  | _, _ => false
  end.

(** ** EventCache *)

Module EventCache.

Record t : Type := {
  max_size : Z;
  cache : list (string * doc)
}.

Definition init (max_size : Z) : t := {| max_size := max_size; cache := [] |}.

(** [self.cache[event_id] = event] *)
Definition setitem (event_id : string) (event : doc)
  (items : list (string * doc)) : list (string * doc) :=
  upsert fst String.eqb (event_id, event) items.

(** [self.cache.popitem(last=False)]; only called on a non-empty dict. *)
Definition popitem_first (items : list (string * doc)) : list (string * doc) :=
  tl items.

Definition add (event_id : string) (event : doc) (c : t) : t :=
  let items := setitem event_id event (cache c) in
  if max_size c <? Z.of_nat (length items)
  then {| max_size := max_size c; cache := popitem_first items |}
  else {| max_size := max_size c; cache := items |}.

Definition get (event_id : string) (c : t) : option doc :=
  option_map snd (find_key fst String.eqb event_id (cache c)).

Definition contains (event_id : string) (c : t) : bool :=
  has_key fst String.eqb event_id (cache c).

Definition size (c : t) : Z := Z.of_nat (length (cache c)).

Definition add_all (entries : list (string * doc)) (c : t) : t :=
  fold_left (fun acc e => add (fst e) (snd e) acc) entries c.

(** The calls a client of the cache can make, and a run of them. *)
Inductive call : Type :=
| CallAdd (event_id : string) (event : doc)
| CallGet (event_id : string)
| CallContains (event_id : string)
| CallSize.

Inductive answer : Type :=
| RetNone
| RetDoc (d : option doc)
| RetBool (b : bool)
| RetInt (z : Z).

Definition perform (c : t) (k : call) : t * answer :=
  match k with
  | CallAdd i d => (add i d c, RetNone)
  | CallGet i => (c, RetDoc (get i c))
  | CallContains i => (c, RetBool (contains i c))
  | CallSize => (c, RetInt (size c))
  end.

Definition run (ks : list call) (c : t) : t :=
  fold_left (fun acc k => fst (perform acc k)) ks c.

Definition is_add (k : call) : bool :=
  match k with CallAdd _ _ => true | _ => false end.

Definition ids (c : t) : list string := map fst (cache c).

(** States the program can build: a fresh cache, then [add]s. *)
Inductive reachable : t -> Prop :=
| reach_init m : reachable (init m)
| reach_add i d c : reachable c -> reachable (add i d c).

End EventCache.

(** ** The world the two services act on *)

(** Content of the state file.  [StateJson tok] is the complete document
    [{"sync_token": tok}]; [Torn tok n] is a file that was truncated for
    the write of that document and received only its first [n] bytes, the
    document being longer than that. *)
Inductive file_content : Type :=
| NoFile
| StateJson (tok : option string)
| Torn (tok : option string) (written : nat).

(** How the [mkdir] and [write_text] of a save go, when they go wrong:
    an error before the file is opened leaves it alone, an error during
    the write leaves part of the document. *)
Inductive disk_fault : Type :=
| WriteOk
| OpenFails
| WriteFails (written : nat).

(** Externally visible effects, in the order they happen.  Of the log
    calls only warnings and errors are recorded. *)
Inductive action : Type :=
| Sync (since : option string)
| WriteState (tok : option string)
| ReplaceOne (d : doc)
| RoomMessages (room : string) (start : string) (limit : Z)
| Sleep (seconds : Q)
| LogWarning (msg : string)
| LogError (msg : string).

Record world : Type := {
  sync_token : option string;
  cache : EventCache.t;
  state_file : file_content;
  events_collection : list doc;
  (** one entry per [replace_one] call still to come: [true] raises *)
  store_faults : list bool;
  (** one entry per [write_text] call still to come *)
  disk_faults : list disk_fault;
  log : list action
}.

Definition with_sync_token (t : option string) (w : world) : world :=
  {| sync_token := t; cache := cache w; state_file := state_file w;
     events_collection := events_collection w;
     store_faults := store_faults w; disk_faults := disk_faults w;
     log := log w |}.

Definition with_cache (c : EventCache.t) (w : world) : world :=
  {| sync_token := sync_token w; cache := c; state_file := state_file w;
     events_collection := events_collection w;
     store_faults := store_faults w; disk_faults := disk_faults w;
     log := log w |}.

Definition with_state_file (f : file_content) (w : world) : world :=
  {| sync_token := sync_token w; cache := cache w; state_file := f;
     events_collection := events_collection w;
     store_faults := store_faults w; disk_faults := disk_faults w;
     log := log w |}.

Definition with_events_collection (l : list doc) (w : world) : world :=
  {| sync_token := sync_token w; cache := cache w; state_file := state_file w;
     events_collection := l;
     store_faults := store_faults w; disk_faults := disk_faults w;
     log := log w |}.

Definition with_store_faults (l : list bool) (w : world) : world :=
  {| sync_token := sync_token w; cache := cache w; state_file := state_file w;
     events_collection := events_collection w;
     store_faults := l; disk_faults := disk_faults w;
     log := log w |}.

Definition with_disk_faults (l : list disk_fault) (w : world) : world :=
  {| sync_token := sync_token w; cache := cache w; state_file := state_file w;
     events_collection := events_collection w;
     store_faults := store_faults w; disk_faults := l;
     log := log w |}.

Definition with_log (l : list action) (w : world) : world :=
  {| sync_token := sync_token w; cache := cache w; state_file := state_file w;
     events_collection := events_collection w;
     store_faults := store_faults w; disk_faults := disk_faults w;
     log := l |}.

(** ** State and exceptions *)

Inductive result (A : Type) : Type :=
| Ok (a : A)
| Raise (e : exn).
Arguments Ok {A} a.
Arguments Raise {A} e.

Definition M (A : Type) : Type := world -> result A * world.

Definition ret {A} (a : A) : M A := fun w => (Ok a, w).

Definition raise {A} (e : exn) : M A := fun w => (Raise e, w).

Definition bind {A B} (m : M A) (k : A -> M B) : M B :=
  fun w =>
    match m w with
    | (Ok a, w') => k a w'
    | (Raise e, w') => (Raise e, w')
    end.

(** [try: m  except Exception as e: h e] *)
Definition try_except {A} (m : M A) (h : exn -> M A) : M A :=
  fun w =>
    match m w with
    | (Ok a, w') => (Ok a, w')
    | (Raise e, w') => h e w'
    end.

Definition lift {A} (r : result A) : M A := fun w => (r, w).

Definition gets {A} (f : world -> A) : M A := fun w => (Ok (f w), w).

Definition modify (f : world -> world) : M unit := fun w => (Ok tt, f w).

Definition emit (a : action) : M unit :=
  modify (fun w => with_log (log w ++ [a]) w).

Declare Scope monad_scope.
Delimit Scope monad_scope with monad.
Notation "x <- m ;; k" := (bind m (fun x => k))
  (at level 61, m at next level, right associativity) : monad_scope.
Notation "m ;; k" := (bind m (fun _ => k))
  (at level 61, right associativity) : monad_scope.
Local Open Scope monad_scope.

Fixpoint for_each {A} (body : A -> M unit) (l : list A) : M unit :=
  match l with
  | [] => ret tt
  | x :: l' => body x ;; for_each body l'
  end.

Definition exec {A} (m : M A) (w : world) : world := snd (m w).
Definition eval {A} (m : M A) (w : world) : result A := fst (m w).

Definition sleep (seconds : Q) : M unit := emit (Sleep seconds).
Definition log_warning (msg : string) : M unit := emit (LogWarning msg).
Definition log_error (msg : string) : M unit := emit (LogError msg).

(** ** indexer.py: MatrixIndexer *)

(** [not hasattr(event, 'event_id') or not event.event_id] *)
Definition lacks_event_id (event : raw_event) : bool :=
  negb (hasattr (ev_event_id event)) || negb (truthy_str (ev_event_id event)).

(** [event.event_id], read once the guard above has let the event pass. *)
Definition event_id_of (event : raw_event) : string :=
  match ev_event_id event with Has s => s | _ => EmptyString end.

(** [event.name]: raises [AttributeError] when the attribute is missing. *)
Definition attribute {A} (x : attr A) : result (option A) :=
  match x with
  | Missing => Raise AttributeError
  | IsNone => Ok None
  | Has a => Ok (Some a)
  end.

(** [int(getattr(event, "timestamp", 0))] *)
Definition int_timestamp (event : raw_event) : result Z :=
  match getattr (ev_timestamp event) (Some 0) with
  | Some z => Ok z
  | None => Raise TypeError
  end.

(** [getattr(event, "source", {})] *)
Definition source_of (event : raw_event) : json :=
  json_or_null (getattr (ev_source event) (Some (JDict []))).

Definition text_content (event : raw_event) : result json :=
  match attribute (ev_body event) with
  | Raise e => Raise e
  | Ok body =>
    match attribute (ev_msgtype event) with
    | Raise e => Raise e
    | Ok msgtype =>
      Ok (JDict [("body", json_of_str body); ("msgtype", json_of_str msgtype)])
    end
  end.

Definition _serialize_event (event : raw_event) : result doc :=
  match int_timestamp event with
  | Raise e => Raise e
  | Ok ts =>
    let mk (c : json) : doc :=
      {| event_id := getattr (ev_event_id event) None;
         room_id := getattr (ev_room_id event) None;
         sender := getattr (ev_sender event) None;
         type := getattr (ev_type event) None;
         origin_server_ts := getattr (ev_origin_server_ts event) None;
         timestamp := ts;
         source := source_of event;
         content := c;
         backfilled := false |} in
    if ev_is_text event then
      match text_content event with
      | Raise e => Raise e
      | Ok c => Ok (mk c)
      end
    else if hasattr (ev_content event) then
      match ev_content event with
      | Has c => Ok (mk (if isinstance_dict c then c else JDict []))
      | _ => Ok (mk (JDict []))
      end
    else Ok (mk (JDict []))
  end.

(** [events_collection.replace_one({"event_id": doc["event_id"]}, doc,
    upsert=True)] *)
Definition replace_one (d : doc) : M unit :=
  fun w =>
    let w' := with_store_faults (tl (store_faults w)) w in
    match store_faults w with
    | true :: _ => (Raise StorageError, w')
    | _ =>
      (Ok tt,
       with_log (log w ++ [ReplaceOne d])
         (with_events_collection
            (upsert event_id id_eqb d (events_collection w)) w'))
    end.

Definition cache_add (i : string) (d : doc) : M unit :=
  modify (fun w => with_cache (EventCache.add i d (cache w)) w).

(** The [for event in events] loop of [_process_events]. *)
Fixpoint collect_docs (events : list raw_event) (docs_to_insert : list doc)
  : M (list doc) :=
  match events with
  | [] => ret docs_to_insert
  | event :: rest =>
    if lacks_event_id event then collect_docs rest docs_to_insert
    else
      d <- lift (_serialize_event event) ;;
      cache_add (event_id_of event) d ;;
      collect_docs rest (docs_to_insert ++ [d])
  end.

Definition _process_events (events : list raw_event) : M unit :=
  match events with
  | [] => ret tt
  | _ =>
    docs_to_insert <- collect_docs events [] ;;
    match docs_to_insert with
    | [] => ret tt
    | _ =>
      try_except
        (for_each replace_one docs_to_insert)
        (fun _ => log_error "Error storing events")
    end
  end.

(** [Path.write_text] on the state file. *)
Definition write_text (tok : option string) : M unit :=
  fun w =>
    let w' := with_disk_faults (tl (disk_faults w)) w in
    match disk_faults w with
    | OpenFails :: _ => (Raise OSError, w')
    | WriteFails n :: _ => (Raise OSError, with_state_file (Torn tok n) w')
    | _ =>
      (Ok tt,
       with_log (log w ++ [WriteState tok])
         (with_state_file (StateJson tok) w'))
    end.

Definition _save_state : M unit :=
  try_except
    (tok <- gets sync_token ;; write_text tok)
    (fun _ => log_warning "Error saving state").

Definition _load_state : M unit :=
  f <- gets state_file ;;
  match f with
  | NoFile => ret tt
  | StateJson tok => modify (with_sync_token tok)
  | Torn _ _ => log_warning "Error loading state"
  end.

(** What [client.sync] does on one call. *)
Record SyncResponse : Type := {
  next_batch : string;
  rooms_join : list (string * list raw_event)
}.

Inductive sync_outcome : Type :=
| SyncRaises (e : exn)
| SyncNotResponse
| SyncReturns (resp : SyncResponse).

(** The body of [for room_id, room_data in resp.rooms.join.items()]. *)
Definition process_room (entry : string * list raw_event) : M unit :=
  match snd entry with
  | [] => ret tt
  | events => _process_events events
  end.

(** One turn of the [while self.running] loop. *)
Definition sync_iteration (o : sync_outcome) : M unit :=
  try_except
    (since <- gets sync_token ;;
     emit (Sync since) ;;
     match o with
     | SyncRaises e => raise e
     | SyncReturns resp =>
       modify (with_sync_token (Some (next_batch resp))) ;;
       _save_state ;;
       for_each process_room (rooms_join resp)
     | SyncNotResponse =>
       log_error "Sync failed" ;;
       sleep (5 # 1)
     end)
    (fun _ => log_error "Error in sync loop" ;; sleep (5 # 1)).

(** The loop, run for as many turns as the server answers before the
    task is cancelled. *)
Definition sync_loop (answers : list sync_outcome) : M unit :=
  for_each sync_iteration answers.

(** The file a crash leaves behind, by how far [write_text] got: the
    file is opened for writing, which truncates it, before any byte of
    the new document is written. *)
Inductive write_stage : Type :=
| NotOpened
| Written (n : nat)
| Closed.

Definition file_at_stage (old : file_content) (tok : option string)
  (s : write_stage) : file_content :=
  match s with
  | NotOpened => old
  | Written n => Torn tok n
  | Closed => StateJson tok
  end.

Definition _save_state_crash (s : write_stage) (w : world) : world :=
  with_state_file (file_at_stage (state_file w) (sync_token w) s) w.

(** ** backfill.py: MatrixBackfill *)

Record room : Type := {
  prev_batch : option string
}.

(** What [client.room_messages] does on one call: it raises, or returns
    an object on which [chunk] and [start] may or may not be there. *)
Inductive messages_outcome : Type :=
| MessagesRaises (e : exn)
| MessagesReturns (chunk : attr (list raw_event)) (start : attr string).

Record client : Type := {
  rooms : list (string * room);
  room_messages : string -> string -> Z -> messages_outcome
}.

Record config : Type := {
  backfill_batch_size : Z;
  cache_size : Z
}.

(** Truth value of an [Optional[str]]. *)
Definition truthy_token (t : option string) : bool :=
  match t with
  | Some s => negb (String.eqb s EmptyString)
  | None => false
  end.

(** [len(range(0, stop, step))]; [range] raises [ValueError] on a zero
    step. *)
Definition range_len (stop step : Z) : result nat :=
  if step =? 0 then Raise ValueError
  else if 0 <? step then
    Ok (if 0 <? stop then Z.to_nat ((stop - 1) / step + 1) else 0%nat)
  else
    Ok (if stop <? 0 then Z.to_nat ((- stop - 1) / (- step) + 1) else 0%nat).

(** The document built inline for one event of a chunk. *)
Definition backfill_doc (room_id : string) (event : raw_event) : result doc :=
  match int_timestamp event with
  | Raise e => Raise e
  | Ok ts =>
    Ok {| event_id := Some (event_id_of event);
          room_id := Some room_id;
          sender := getattr (ev_sender event) None;
          type := getattr (ev_type event) None;
          origin_server_ts := getattr (ev_origin_server_ts event) None;
          timestamp := ts;
          source := source_of event;
          content := json_or_null (getattr (ev_content event) (Some (JDict [])));
          backfilled := true |}
  end.

(** The [for event in resp.chunk] loop. *)
Fixpoint chunk_docs (room_id : string) (chunk : list raw_event)
  (docs_to_insert : list doc) : result (list doc) :=
  match chunk with
  | [] => Ok docs_to_insert
  | event :: rest =>
    if lacks_event_id event then chunk_docs room_id rest docs_to_insert
    else
      match backfill_doc room_id event with
      | Raise e => Raise e
      | Ok d => chunk_docs room_id rest (docs_to_insert ++ [d])
      end
  end.

(** [not hasattr(resp, 'chunk') or not resp.chunk] *)
Definition no_chunk (chunk : attr (list raw_event)) : bool :=
  match chunk with
  | Has (_ :: _) => false
  | _ => true
  end.

Definition chunk_of (chunk : attr (list raw_event)) : list raw_event :=
  match chunk with Has l => l | _ => [] end.

Section Backfill.
Variable cfg : config.
Variable cl : client.

(** The [try] block that stores one batch and counts it. *)
Definition store_batch (docs_to_insert : list doc) (event_count : Z) : M Z :=
  match docs_to_insert with
  | [] => ret event_count
  | _ =>
    try_except
      (for_each replace_one docs_to_insert ;;
       ret (event_count + Z.of_nat (length docs_to_insert)))
      (fun _ => log_error "Error storing backfill events" ;; ret event_count)
  end.

(** The [for i in range(..)] loop, [n] turns of it left; the result is
    [event_count] when the loop is left, by [break] or by exhaustion. *)
Fixpoint backfill_batches (n : nat) (room_id : string)
  (start_token : option string) (event_count : Z) : M Z :=
  match n with
  | O => ret event_count
  | S n' =>
    if negb (truthy_token start_token) then ret event_count
    else
      let start := match start_token with Some s => s | None => EmptyString end in
      emit (RoomMessages room_id start (backfill_batch_size cfg)) ;;
      match room_messages cl room_id start (backfill_batch_size cfg) with
      | MessagesRaises e => raise e
      | MessagesReturns chunk next =>
        if no_chunk chunk then ret event_count
        else
          docs_to_insert <- lift (chunk_docs room_id (chunk_of chunk) []) ;;
          event_count' <- store_batch docs_to_insert event_count ;;
          if hasattr next then
            sleep (1 # 10) ;;
            backfill_batches n' room_id (getattr next None) event_count'
          else ret event_count'
      end
  end.

(** The body of the [try] of [backfill_room]. *)
Definition backfill_room_body (room_id : string) (limit : Z) : M Z :=
  match find_key fst String.eqb room_id (rooms cl) with
  | None => log_warning "Room not found in client" ;; ret 0
  | Some (_, r) =>
    n <- lift (range_len limit (backfill_batch_size cfg)) ;;
    backfill_batches n room_id (prev_batch r) 0
  end.

Definition backfill_room (room_id : string) (limit : Z) : M Z :=
  try_except
    (backfill_room_body room_id limit)
    (fun _ => log_error "Error backfilling room" ;; ret 0).

(** The [for room_id in rooms] loop; [results] is the dict built so
    far. *)
Fixpoint backfill_rooms (room_ids : list string)
  (results : list (string * Z)) : M (list (string * Z)) :=
  match room_ids with
  | [] => ret results
  | room_id :: rest =>
    count <- backfill_room room_id 1000 ;;
    sleep (1 # 2) ;;
    backfill_rooms rest (upsert fst String.eqb (room_id, count) results)
  end.

Definition backfill_all_rooms : M (list (string * Z)) :=
  backfill_rooms (keys fst (rooms cl)) [].
End Backfill.

(** ** A fresh indexer, and concrete inputs *)

(** [MatrixIndexer.__init__] followed by the connections: an empty cache
    of the configured size, no cursor yet. *)
Definition new_indexer (cfg : config) (file : file_content)
  (stored : list doc) : world :=
  {| sync_token := None;
     cache := EventCache.init (cache_size cfg);
     state_file := file;
     events_collection := stored;
     store_faults := [];
     disk_faults := [];
     log := [] |}.

(** An event with nothing but an identifier. *)
Definition bare_event (i : attr string) : raw_event :=
  {| ev_is_text := false;
     ev_event_id := i;
     ev_room_id := Missing;
     ev_sender := Missing;
     ev_type := Missing;
     ev_origin_server_ts := Missing;
     ev_timestamp := Missing;
     ev_source := Missing;
     ev_content := Missing;
     ev_body := Missing;
     ev_msgtype := Missing |}.

(** The document the sync path stores for [bare_event (Has i)]. *)
Definition bare_doc (i : string) : doc :=
  {| event_id := Some i;
     room_id := None;
     sender := None;
     type := None;
     origin_server_ts := None;
     timestamp := 0;
     source := JDict [];
     content := JDict [];
     backfilled := false |}.

Definition default_config : config :=
  {| backfill_batch_size := 100; cache_size := 10000 |}.

(** ** Relating the world before and after a computation *)

Definition respects (R : world -> world -> Prop) {A} (m : M A) : Prop :=
  forall w, R w (snd (m w)).

(** A component of the world is left as it was. *)
Definition unchanged {X} (f : world -> X) : world -> world -> Prop :=
  fun w w' => f w' = f w.

(** The collection changed by upserts only. *)
Definition store_grows : world -> world -> Prop :=
  fun w w' =>
    exists ds,
      events_collection w'
      = upsert_all event_id id_eqb (events_collection w) ds.

(** The log was extended, by actions satisfying [P] only. *)
Definition log_grows (P : action -> Prop) : world -> world -> Prop :=
  fun w w' => exists l, log w' = log w ++ l /\ Forall P l.

Definition no_store_fault (w : world) : Prop := ~ In true (store_faults w).

Definition is_replace_one (a : action) : bool :=
  match a with ReplaceOne _ => true | _ => false end.

Definition is_write_state (a : action) : bool :=
  match a with WriteState _ => true | _ => false end.

(** ** The sync cycle, seen from outside *)

(** The [except Exception] branch of the loop body. *)
Definition sync_handler : exn -> M unit :=
  fun _ => log_error "Error in sync loop" ;; sleep (5 # 1).

Definition not_write_state (a : action) : Prop := is_write_state a = false.

(** The world right after a cycle that got [resp] has set the cursor and
    called [_save_state]: what a crash at that point leaves behind. *)
Definition after_checkpoint (resp : SyncResponse) (w : world) : world :=
  exec _save_state
    (with_sync_token (Some (next_batch resp))
       (with_log (log w ++ [Sync (sync_token w)]) w)).

(** What the cycle adds to the log. *)
Definition cycle_log (o : sync_outcome) (w : world) : list action :=
  skipn (length (log w)) (log (exec (sync_iteration o) w)).

(** No document is written after a write of the state file. *)
Fixpoint stored_before_persisted (l : list action) : bool :=
  match l with
  | [] => true
  | a :: l' =>
    (if is_write_state a
     then forallb (fun b => negb (is_replace_one b)) l'
     else true)
    && stored_before_persisted l'
  end.

(** The file [_save_state] leaves when nothing interrupts it. *)
Definition file_after_write (tok : option string) (w : world) : file_content :=
  match disk_faults w with
  | OpenFails :: _ => state_file w
  | WriteFails n :: _ => Torn tok n
  | _ => StateJson tok
  end.

(** The documents [_process_events] sets out to store for a batch: the
    result of its first loop, without the cache. *)
Fixpoint sync_docs (events : list raw_event) (docs_to_insert : list doc)
  : result (list doc) :=
  match events with
  | [] => Ok docs_to_insert
  | event :: rest =>
    if lacks_event_id event then sync_docs rest docs_to_insert
    else
      match _serialize_event event with
      | Raise e => Raise e
      | Ok d => sync_docs rest (docs_to_insert ++ [d])
      end
  end.

Definition carries_event_id (event : raw_event) : bool :=
  negb (lacks_event_id event).

(** The documents a walk sets out to store, batch after batch, until it
    stops or an exception ends it: the control flow of
    [backfill_batches] without the world. *)
Fixpoint walked_docs (cfg : config) (cl : client) (n : nat)
  (room_id : string) (start_token : option string) : list doc :=
  match n with
  | O => []
  | S n' =>
    if negb (truthy_token start_token) then []
    else
      let start := match start_token with Some s => s | None => EmptyString end in
      match room_messages cl room_id start (backfill_batch_size cfg) with
      | MessagesRaises _ => []
      | MessagesReturns chunk next =>
        if no_chunk chunk then []
        else
          match chunk_docs room_id (chunk_of chunk) [] with
          | Raise _ => []
          | Ok ds =>
            ds ++ (if hasattr next
                   then walked_docs cfg cl n' room_id (getattr next None)
                   else [])
          end
      end
  end.

(** The exception that ends a walk, if one does: the control flow of
    [backfill_batches] without the world.  A failing write is not among
    them, since [store_batch] catches it. *)
Fixpoint walk_exception (cfg : config) (cl : client) (n : nat)
  (room_id : string) (start_token : option string) : option exn :=
  match n with
  | O => None
  | S n' =>
    if negb (truthy_token start_token) then None
    else
      let start := match start_token with Some s => s | None => EmptyString end in
      match room_messages cl room_id start (backfill_batch_size cfg) with
      | MessagesRaises e => Some e
      | MessagesReturns chunk next =>
        if no_chunk chunk then None
        else
          match chunk_docs room_id (chunk_of chunk) [] with
          | Raise e => Some e
          | Ok _ =>
            if hasattr next
            then walk_exception cfg cl n' room_id (getattr next None)
            else None
          end
      end
  end.

Definition room_docs (cfg : config) (cl : client) (room_id : string)
  (limit : Z) : list doc :=
  match find_key fst String.eqb room_id (rooms cl) with
  | None => []
  | Some (_, r) =>
    match range_len limit (backfill_batch_size cfg) with
    | Raise _ => []
    | Ok n => walked_docs cfg cl n room_id (prev_batch r)
    end
  end.

(** A client that has joined two rooms: fetching the history of [!A]
    fails, that of [!B] holds two events, one of them without an
    identifier, and no position to go on from. *)
Definition two_rooms_client : client :=
  {| rooms := [("!A", {| prev_batch := Some "t0" |});
               ("!B", {| prev_batch := Some "t1" |})];
     room_messages := fun room_id start limit =>
       if String.eqb room_id "!A" then MessagesRaises NetworkError
       else MessagesReturns
              (Has [bare_event (Has "$b1"); bare_event Missing;
                    bare_event (Has "$b2")])
              Missing |}.

(** A client that has joined two rooms: the history of [!A] gives one
    event and a position to go on from, and the request from there
    fails; that of [!B] holds two events and ends. *)
Definition late_failure_client : client :=
  {| rooms := [("!A", {| prev_batch := Some "t0" |});
               ("!B", {| prev_batch := Some "t1" |})];
     room_messages := fun room_id start limit =>
       if String.eqb room_id "!A" then
         if String.eqb start "t0"
         then MessagesReturns (Has [bare_event (Has "$a1")]) (Has "t2")
         else MessagesRaises NetworkError
       else MessagesReturns
              (Has [bare_event (Has "$b1"); bare_event (Has "$b2")])
              Missing |}.


(** ** Readings of the specification, to be compared with the code *)

(** "The serializer rejects the event." *)
Definition serializer_rejects (event : raw_event) : Prop :=
  exists e, _serialize_event event = Raise e.

(** "A record is produced, and it holds the empty string for a missing
    sender or type and zero for a missing timestamp." *)
Definition defaults_to_empty (event : raw_event) : Prop :=
  exists d,
    _serialize_event event = Ok d
    /\ (ev_sender event = Missing -> sender d = Some EmptyString)
    /\ (ev_type event = Missing -> type d = Some EmptyString)
    /\ (ev_timestamp event = Missing -> timestamp d = 0).

(** What the code puts into the record for the optional fields. *)
Definition defaults_to_none (event : raw_event) (d : doc) : Prop :=
  (ev_sender event = Missing -> sender d = None)
  /\ (ev_type event = Missing -> type d = None)
  /\ (ev_origin_server_ts event = Missing -> origin_server_ts d = None)
  /\ (ev_timestamp event = Missing -> timestamp d = 0).

Definition has_identifier (d : doc) : Prop :=
  exists s, event_id d = Some s /\ s <> EmptyString.

(** What [_save_state] adds to the log. *)
Definition save_log (tok : option string) (w : world) : list action :=
  match disk_faults w with
  | OpenFails :: _ => [LogWarning "Error saving state"]
  | WriteFails _ :: _ => [LogWarning "Error saving state"]
  | _ => [WriteState tok]
  end.

(** "The cursor is persisted only after the events of the batch are
    stored": in what the cycle adds to the log, no document is written
    after the state file. *)
Definition store_then_checkpoint (resp : SyncResponse) (w : world) : Prop :=
  stored_before_persisted (cycle_log (SyncReturns resp) w) = true.


(** "A crash during the save leaves the old file or the new one." *)
Definition save_is_atomic (s : write_stage) (w : world) : Prop :=
  state_file (_save_state_crash s w) = state_file w
  \/ state_file (_save_state_crash s w) = StateJson (sync_token w).

(** A sync response with one room and one event in it. *)
Definition one_event_response : SyncResponse :=
  {| next_batch := "s1";
     rooms_join := [("!A", [bare_event (Has "$a")])] |}.


(** An indexer at cursor [s1] with [s0] on disk, about to save. *)
Definition saving_indexer : world :=
  with_sync_token (Some "s1")
    (new_indexer default_config (StateJson (Some "s0")) []).


(** ** Further descriptions of what the code does *)

(** The documents of a batch that [for doc in docs_to_insert:
    replace_one(..)] writes before the database fails, if it does. *)
Fixpoint written_prefix (faults : list bool) (ds : list doc) {struct ds}
  : list doc :=
  match ds with
  | [] => []
  | d :: ds' =>
    match faults with
    | true :: _ => []
    | _ :: fs => d :: written_prefix fs ds'
    | [] => d :: ds'
    end
  end.

(** The documents the first loop of [_process_events] builds before the
    serializer raises, if it does. *)
Fixpoint serialized_prefix (events : list raw_event) : list doc :=
  match events with
  | [] => []
  | event :: rest =>
    if lacks_event_id event then serialized_prefix rest
    else
      match _serialize_event event with
      | Raise _ => []
      | Ok d => d :: serialized_prefix rest
      end
  end.

(** The cache entry [_process_events] makes for a document: its key is
    the event's [event_id], which is the document's. *)
Definition cache_entry (d : doc) : string * doc :=
  (match event_id d with Some s => s | None => EmptyString end, d).

(** The cursor a run of the loop ends with. *)
Fixpoint last_next_batch (answers : list sync_outcome)
  (tok : option string) : option string :=
  match answers with
  | [] => tok
  | SyncReturns resp :: rest => last_next_batch rest (Some (next_batch resp))
  | _ :: rest => last_next_batch rest tok
  end.

(** The cursor [_load_state] finds in a state file. *)
Definition loaded_token (f : file_content) : option string :=
  match f with
  | StateJson tok => tok
  | _ => None
  end.

Definition is_room_messages (a : action) : bool :=
  match a with RoomMessages _ _ _ => true | _ => false end.

(** The number of history requests in a stretch of the log. *)
Definition count_requests (l : list action) : nat :=
  length (filter is_room_messages l).

(** All the events of a sync response, room after room. *)
Definition timeline_events (resp : SyncResponse) : list raw_event :=
  concat (map snd (rooms_join resp)).

(** An event whose [timestamp] attribute is there and holds [None]. *)
Definition null_timestamp_event (i : string) : raw_event :=
  {| ev_is_text := false;
     ev_event_id := Has i;
     ev_room_id := Missing;
     ev_sender := Missing;
     ev_type := Missing;
     ev_origin_server_ts := Missing;
     ev_timestamp := IsNone;
     ev_source := Missing;
     ev_content := Missing;
     ev_body := Missing;
     ev_msgtype := Missing |}.

Definition not_room_messages (a : action) : Prop := is_room_messages a = false.

(** The document the backfill path stores for [bare_event (Has i)]. *)
Definition bare_backfill_doc (room i : string) : doc :=
  {| event_id := Some i;
     room_id := Some room;
     sender := None;
     type := None;
     origin_server_ts := None;
     timestamp := 0;
     source := JDict [];
     content := JDict [];
     backfilled := true |}.

(** ** config.py *)

Module Config.

Record MongoConfig : Type := {
  uri : string;
  db : string;
  events_collection : string;
  rooms_collection : string;
  users_collection : string
}.

Record MatrixConfig : Type := {
  homeserver : string;
  user_id : string;
  password : string;
  access_token : string;
  device_id : string;
  device_name : string
}.

(** A [Path] is the list of its parts. *)
Record IndexerConfig : Type := {
  matrix : MatrixConfig;
  mongo : MongoConfig;
  log_level : string;
  sync_timeout_ms : Z;
  backfill_batch_size : Z;
  cache_size : Z;
  state_file : list string
}.

(** The field defaults; [home] is what [Path.home()] returns. *)
Definition default_mongo : MongoConfig :=
  {| uri := "mongodb://localhost:27017";
     db := "matrix_index";
     events_collection := "events";
     rooms_collection := "rooms";
     users_collection := "users" |}.

Definition default_matrix : MatrixConfig :=
  {| homeserver := "https://cclub.cs.wmich.edu";
     user_id := "@scooby:cclub.cs.wmich.edu";
     password := EmptyString;
     access_token := EmptyString;
     device_id := "INDEXER";
     device_name := "Matrix Indexer" |}.

Definition defaults (home : string) : IndexerConfig :=
  {| matrix := default_matrix;
     mongo := default_mongo;
     log_level := "INFO";
     sync_timeout_ms := 30000;
     backfill_batch_size := 100;
     cache_size := 10000;
     state_file := [home; ".matrix-indexer"; "state.json"] |}.

(** [os.environ]. *)
Definition environ : Type := string -> option string.

(** [if name in os.environ: field = os.environ[name]] *)
Definition env_or (env : environ) (name : string) (current : string) : string :=
  match env name with Some v => v | None => current end.

Definition from_env (env : environ) (home : string) : IndexerConfig :=
  let config := defaults home in
  let m := matrix config in
  let m :=
    {| homeserver := env_or env "MATRIX_HOMESERVER" (homeserver m);
       user_id := env_or env "MATRIX_USER_ID" (user_id m);
       password := env_or env "MATRIX_PASSWORD" (password m);
       access_token := env_or env "MATRIX_TOKEN" (access_token m);
       device_id := device_id m;
       device_name := device_name m |} in
  let g := mongo config in
  let g :=
    {| uri := env_or env "MONGO_URI" (uri g);
       db := env_or env "MONGO_DB" (db g);
       events_collection := events_collection g;
       rooms_collection := rooms_collection g;
       users_collection := users_collection g |} in
  {| matrix := m;
     mongo := g;
     log_level := env_or env "LOG_LEVEL" (log_level config);
     sync_timeout_ms := sync_timeout_ms config;
     backfill_batch_size := backfill_batch_size config;
     cache_size := cache_size config;
     state_file := state_file config |}.




End Config.

(** The part of the configuration the cache and the walker use. *)
Definition ingestion_config (c : Config.IndexerConfig) : config :=
  {| backfill_batch_size := Config.backfill_batch_size c;
     cache_size := Config.cache_size c |}.

(** ** Starting the two services *)

(** What [client.login] does: it raises, or returns a response, which
    carries an access token when it is a login response and has no such
    attribute otherwise. *)
Inductive login_outcome : Type :=
| LoginRaises (e : exn)
| LoginReturns (access_token : option string).

(** Why [connect] gives up. *)
Inductive connect_error : Type :=
| LoginFailed
| NoCredentials
| LoginException (e : exn)
| MongoException.

Definition truthy_string (s : string) : bool := negb (String.eqb s EmptyString).

Definition with_access_token (t : string) (m : Config.MatrixConfig)
  : Config.MatrixConfig :=
  {| Config.homeserver := Config.homeserver m;
     Config.user_id := Config.user_id m;
     Config.password := Config.password m;
     Config.access_token := t;
     Config.device_id := Config.device_id m;
     Config.device_name := Config.device_name m |}.


(** The login block of [MatrixBackfill.connect], which has no [else]. *)
Definition backfill_login (m : Config.MatrixConfig) (login : login_outcome)
  : connect_error + Config.MatrixConfig :=
  if truthy_string (Config.access_token m) then inr m
  else if truthy_string (Config.password m) then
    match login with
    | LoginRaises e => inl (LoginException e)
    | LoginReturns None => inl LoginFailed
    | LoginReturns (Some t) => inr (with_access_token t m)
    end
  else inr m.


Definition backfill_connect (m : Config.MatrixConfig) (login : login_outcome)
  (mongo_ok : bool) : connect_error + Config.MatrixConfig :=
  match backfill_login m login with
  | inl e => inl e
  | inr m' => if mongo_ok then inr m' else inl MongoException
  end.

(** How the two [close] calls of a [stop] go. *)
Record close_outcome : Type := {
  client_close_raises : bool;
  mongo_close_raises : bool
}.


(** [MatrixBackfill.stop] *)
Definition backfill_stop (closes : close_outcome) (mongo_connected : bool)
  : M unit :=
  (if client_close_raises closes
   then log_warning "Error closing client" else ret tt) ;;
  (if mongo_connected && mongo_close_raises closes
   then log_warning "Error closing MongoDB" else ret tt).

(** What a [stop] logs. *)
Definition close_warnings (client_msg mongo_msg : string)
  (closes : close_outcome) (mongo_connected : bool) : list action :=
  (if client_close_raises closes then [LogWarning client_msg] else [])
  ++ (if mongo_connected && mongo_close_raises closes
      then [LogWarning mongo_msg] else []).

Definition connected (r : connect_error + Config.MatrixConfig) : bool :=
  match r with inl _ => false | inr _ => true end.


(** [backfill_all] of backfill.py once the service object exists. *)
Definition backfill_all (c : Config.IndexerConfig) (login : login_outcome)
  (mongo_ok : bool) (cl : client) (closes : close_outcome) : M unit :=
  let r := backfill_connect (Config.matrix c) login mongo_ok in
  match r with
  | inl _ => log_error "Backfill failed"
  | inr _ =>
    try_except (backfill_all_rooms (ingestion_config c) cl ;; ret tt)
      (fun _ => log_error "Backfill failed")
  end ;;
  backfill_stop closes (connected r).

(** [backfill_single_room] of backfill.py, which walks the room with the
    default limit. *)
Definition backfill_single_room (c : Config.IndexerConfig)
  (login : login_outcome) (mongo_ok : bool) (cl : client) (room_id : string)
  (closes : close_outcome) : M unit :=
  let r := backfill_connect (Config.matrix c) login mongo_ok in
  match r with
  | inl _ => log_error "Backfill failed"
  | inr _ =>
    try_except (backfill_room (ingestion_config c) cl room_id 1000 ;; ret tt)
      (fun _ => log_error "Backfill failed")
  end ;;
  backfill_stop closes (connected r).


(** The cache was filled by [add]s only. *)
Definition cache_grows : world -> world -> Prop :=
  fun w w' =>
    exists entries,
      cache w' = EventCache.add_all entries (cache w).

(** * Facts *)

(** ** Keyed lists *)

Section KeyedListFacts.
Variables A K : Type.
Variable key : A -> K.
Variable K_eqb : K -> K -> bool.
Hypothesis K_eqb_spec : forall x y, reflect (x = y) (K_eqb x y).

Local Abbreviation upsert := (upsert key K_eqb).
Local Abbreviation find_key := (find_key key K_eqb).
Local Abbreviation has_key := (has_key key K_eqb).
Local Abbreviation upsert_all := (upsert_all key K_eqb).
Local Abbreviation keys := (keys key).

Lemma K_eqb_refl k : K_eqb k k = true.
Proof. destruct (K_eqb_spec k k); congruence. Qed.

Lemma has_key_In k l : has_key k l = true <-> In k (keys l).
Proof.
  unfold has_key.
  induction l as [|x l IH]; simpl.
  - split; [discriminate | tauto].
  - destruct (K_eqb_spec (key x) k) as [E|N].
    + split; auto.
    + rewrite IH. split; [auto | intros [E|H]; [contradiction | exact H]].
Qed.

Lemma upsert_absent a l :
  ~ In (key a) (keys l) -> upsert a l = l ++ [a].
Proof.
  induction l as [|x l IH]; simpl; intros H; [reflexivity|].
  destruct (K_eqb_spec (key x) (key a)) as [E|N].
  - exfalso. apply H. left. exact E.
  - f_equal. apply IH. intros H'. apply H. right. exact H'.
Qed.

Lemma keys_upsert_present a l :
  In (key a) (keys l) -> keys (upsert a l) = keys l.
Proof.
  induction l as [|x l IH]; simpl; intros H; [contradiction|].
  destruct (K_eqb_spec (key x) (key a)) as [E|N].
  - simpl. now rewrite E.
  - simpl. f_equal. apply IH. destruct H as [H|H]; [contradiction | exact H].
Qed.

Lemma length_upsert_present a l :
  In (key a) (keys l) -> length (upsert a l) = length l.
Proof.
  intros H. apply keys_upsert_present in H.
  unfold keys in H. apply (f_equal (@length K)) in H.
  now rewrite !length_map in H.
Qed.

Lemma find_key_upsert_same a l : find_key (key a) (upsert a l) = Some a.
Proof.
  induction l as [|x l IH]; simpl.
  - now rewrite K_eqb_refl.
  - destruct (K_eqb_spec (key x) (key a)) as [E|N]; simpl.
    + now rewrite K_eqb_refl.
    + destruct (K_eqb_spec (key x) (key a)); [contradiction | exact IH].
Qed.

Lemma find_key_upsert_other a k l :
  k <> key a -> find_key k (upsert a l) = find_key k l.
Proof.
  intros Hk.
  induction l as [|x l IH]; simpl.
  - destruct (K_eqb_spec (key a) k); [congruence | reflexivity].
  - destruct (K_eqb_spec (key x) (key a)) as [E|N]; simpl.
    + destruct (K_eqb_spec (key a) k); [congruence|].
      destruct (K_eqb_spec (key x) k); [congruence | reflexivity].
    + destruct (K_eqb_spec (key x) k); [reflexivity | exact IH].
Qed.

Lemma In_keys_upsert_same a l : In (key a) (keys (upsert a l)).
Proof.
  apply has_key_In. unfold has_key. now rewrite find_key_upsert_same.
Qed.

Lemma In_keys_upsert_keep a k l :
  In k (keys l) -> In k (keys (upsert a l)).
Proof.
  intros H. destruct (K_eqb_spec k (key a)) as [E|N].
  - subst. apply In_keys_upsert_same.
  - apply has_key_In. apply has_key_In in H. unfold has_key in *.
    now rewrite find_key_upsert_other.
Qed.

Lemma In_keys_upsert_inv a k l :
  In k (keys (upsert a l)) -> k = key a \/ In k (keys l).
Proof.
  intros H. destruct (K_eqb_spec k (key a)) as [E|N]; [now left | right].
  apply has_key_In. apply has_key_In in H. unfold has_key in *.
  now rewrite find_key_upsert_other in H.
Qed.

(** A later write to a key hides an earlier write to the same key. *)
Lemma upsert_absorb a b l :
  key a = key b -> upsert a (upsert b l) = upsert a l.
Proof.
  intros E.
  induction l as [|x l IH]; simpl.
  - destruct (K_eqb_spec (key b) (key a)); [reflexivity | congruence].
  - rewrite <- E.
    destruct (K_eqb_spec (key x) (key a)) as [E1|N1]; simpl.
    + destruct (K_eqb_spec (key b) (key a)); [reflexivity | congruence].
    + destruct (K_eqb_spec (key x) (key a)); [contradiction|].
      f_equal. exact IH.
Qed.

(** Writes to different keys commute as soon as one key is present. *)
Lemma upsert_comm a b l :
  key a <> key b -> In (key a) (keys l) ->
  upsert a (upsert b l) = upsert b (upsert a l).
Proof.
  intros N.
  induction l as [|x l IH]; simpl; intros H; [contradiction|].
  destruct (K_eqb_spec (key x) (key b)) as [Eb|Nb];
    destruct (K_eqb_spec (key x) (key a)) as [Ea|Na]; simpl.
  - congruence.
  - destruct (K_eqb_spec (key b) (key a)); [congruence|].
    destruct (K_eqb_spec (key x) (key b)); [|contradiction].
    reflexivity.
  - destruct (K_eqb_spec (key a) (key b)); [congruence|].
    destruct (K_eqb_spec (key x) (key a)); [|contradiction].
    reflexivity.
  - destruct (K_eqb_spec (key x) (key a)); [contradiction|].
    destruct (K_eqb_spec (key x) (key b)); [contradiction|].
    f_equal. apply IH. destruct H as [H|H]; [contradiction | exact H].
Qed.

Lemma upsert_all_cons l a xs :
  upsert_all l (a :: xs) = upsert_all (upsert a l) xs.
Proof. reflexivity. Qed.

Lemma upsert_all_app l xs ys :
  upsert_all l (xs ++ ys) = upsert_all (upsert_all l xs) ys.
Proof. unfold upsert_all. apply fold_left_app. Qed.

Lemma In_keys_upsert_all_keep k xs : forall l,
  In k (keys l) -> In k (keys (upsert_all l xs)).
Proof.
  induction xs as [|a xs IH]; intros l H; [exact H|].
  rewrite upsert_all_cons. apply IH. now apply In_keys_upsert_keep.
Qed.

Lemma In_keys_upsert_all_new k xs : forall l,
  In k (keys xs) -> In k (keys (upsert_all l xs)).
Proof.
  induction xs as [|a xs IH]; intros l H; [contradiction|].
  rewrite upsert_all_cons. destruct H as [H|H].
  - apply In_keys_upsert_all_keep. subst. apply In_keys_upsert_same.
  - now apply IH.
Qed.

(** A write whose key is written again later in the batch is dead. *)
Lemma upsert_all_override a xs : forall l,
  In (key a) (keys l) -> In (key a) (keys xs) ->
  upsert_all (upsert a l) xs = upsert_all l xs.
Proof.
  induction xs as [|b xs IH]; intros l Hl Hx; [contradiction|].
  rewrite !upsert_all_cons.
  destruct (K_eqb_spec (key b) (key a)) as [E|N].
  - now rewrite upsert_absorb.
  - rewrite <- upsert_comm by congruence.
    apply IH.
    + now apply In_keys_upsert_keep.
    + destruct Hx as [Hx|Hx]; [contradiction | exact Hx].
Qed.

(** A write the list already reflects stays a no-op after a batch that
    does not touch its key. *)
Lemma upsert_all_untouched a xs : forall l,
  upsert a l = l -> ~ In (key a) (keys xs) ->
  upsert a (upsert_all l xs) = upsert_all l xs.
Proof.
  induction xs as [|b xs IH]; intros l Hl Hx; [exact Hl|].
  rewrite upsert_all_cons. apply IH.
  - rewrite upsert_comm.
    + now rewrite Hl.
    + intros E. apply Hx. left. now rewrite E.
    + rewrite <- Hl. apply In_keys_upsert_same.
  - intros H. apply Hx. now right.
Qed.

(** Replaying a batch of upserts leaves the list as the first pass
    left it. *)
Lemma upsert_all_idempotent xs : forall l,
  upsert_all (upsert_all l xs) xs = upsert_all l xs.
Proof.
  induction xs as [|a xs IH]; intros l; [reflexivity|].
  rewrite !upsert_all_cons.
  destruct (in_dec (fun x y => reflect_dec _ _ (K_eqb_spec x y))
              (key a) (keys xs)) as [Hin|Hout].
  - rewrite upsert_all_override; [apply IH | | exact Hin].
    apply In_keys_upsert_all_keep, In_keys_upsert_same.
  - rewrite upsert_all_untouched; [apply IH | | exact Hout].
    now apply upsert_absorb.
Qed.

(** Upserting never creates a second entry for a key. *)
Lemma NoDup_keys_upsert a l : NoDup (keys l) -> NoDup (keys (upsert a l)).
Proof.
  intros H.
  destruct (in_dec (fun x y => reflect_dec _ _ (K_eqb_spec x y))
              (key a) (keys l)) as [Hin|Hout].
  - now rewrite keys_upsert_present.
  - rewrite upsert_absent by exact Hout.
    unfold keys in *. rewrite map_app. simpl.
    induction (map key l) as [|k ks IHks]; simpl.
    + repeat constructor. simpl. tauto.
    + inversion H as [|k' ks' Hk Hks]; subst.
      constructor.
      * rewrite in_app_iff. simpl. intros [Hin|[E|[]]].
        -- contradiction.
        -- apply Hout. left. now symmetry.
      * apply IHks; [exact Hks|]. intros Hin. apply Hout. now right.
Qed.

Lemma NoDup_keys_upsert_all xs : forall l,
  NoDup (keys l) -> NoDup (keys (upsert_all l xs)).
Proof.
  induction xs as [|a xs IH]; intros l H; [exact H|].
  rewrite upsert_all_cons. apply IH. now apply NoDup_keys_upsert.
Qed.
End KeyedListFacts.

Section KeyedListLength.
Variables A K : Type.
Variable key : A -> K.
Variable K_eqb : K -> K -> bool.

Lemma length_upsert_bounds (a : A) l :
  (length l <= length (upsert key K_eqb a l) <= S (length l))%nat.
Proof.
  induction l as [|x l IH]; simpl; [lia|].
  destruct (K_eqb (key x) (key a)); simpl; lia.
Qed.
End KeyedListLength.

Lemma tl_skipn_snoc (A : Type) (x : A) : forall m (l : list A),
  (m <= length l)%nat -> tl (skipn m l ++ [x]) = skipn (S m) (l ++ [x]).
Proof.
  induction m as [|m IH]; intros l H.
  - destruct l; reflexivity.
  - destruct l as [|a l]; simpl in H; [lia|].
    change (skipn (S m) (a :: l)) with (skipn m l).
    change (skipn (S (S m)) ((a :: l) ++ [x])) with (skipn (S m) (l ++ [x])).
    apply IH. lia.
Qed.

Lemma In_skipn (A : Type) (x : A) : forall m (l : list A),
  In x (skipn m l) -> In x l.
Proof.
  induction m as [|m IH]; intros l H; [exact H|].
  destruct l as [|a l]; [exact H|]. right. apply IH. exact H.
Qed.

Lemma id_eqb_spec x y : reflect (x = y) (id_eqb x y).
Proof.
  destruct x as [a|], y as [b|]; simpl; try (constructor; congruence).
  destruct (String.eqb_spec a b); constructor; congruence.
Qed.

(** ** EventCache *)

Module EventCacheFacts.
Import EventCache.

Lemma max_size_add i d c : max_size (add i d c) = max_size c.
Proof. unfold add. destruct (_ <? _); reflexivity. Qed.

Lemma max_size_add_all es : forall c, max_size (add_all es c) = max_size c.
Proof.
  induction es as [|e es IH]; intros c; [reflexivity|].
  simpl. unfold add_all in IH. rewrite IH. apply max_size_add.
Qed.

Lemma add_all_snoc es e c :
  add_all (es ++ [e]) c = add (fst e) (snd e) (add_all es c).
Proof. unfold add_all. now rewrite fold_left_app. Qed.

Lemma size_add_le i d c :
  0 <= max_size c -> size c <= max_size c -> size (add i d c) <= max_size c.
Proof.
  unfold size, add, setitem, popitem_first. intros H0 H.
  pose proof (length_upsert_bounds fst String.eqb (i, d) (cache c)) as B.
  destruct (Z.ltb_spec (max_size c)
              (Z.of_nat (length (upsert fst String.eqb (i, d) (cache c)))))
    as [L|L]; simpl.
  - destruct (upsert fst String.eqb (i, d) (cache c)); simpl in *; lia.
  - exact L.
Qed.

Lemma size_add_all_le es : forall c,
  0 <= max_size c -> size c <= max_size c ->
  size (add_all es c) <= max_size c.
Proof.
  induction es as [|e es IH]; intros c H0 H; [exact H|].
  simpl. unfold add_all in IH.
  rewrite <- (max_size_add (fst e) (snd e) c).
  apply IH; rewrite max_size_add; [exact H0 | now apply size_add_le].
Qed.

(** Adding a fresh id to a cache that is full drops exactly the entry
    at the front of the insertion order. *)
Lemma add_fresh_full i d c :
  ~ In i (ids c) -> max_size c <= size c ->
  cache (add i d c) = tl (cache c ++ [(i, d)]).
Proof.
  unfold add, setitem, popitem_first, size, ids. intros Hf Hs.
  rewrite upsert_absent by (try apply String.eqb_spec; exact Hf).
  rewrite length_app. simpl.
  destruct (Z.ltb_spec (max_size c)
              (Z.of_nat (length (cache c) + 1))); [reflexivity | lia].
Qed.

Lemma add_fresh_room i d c :
  ~ In i (ids c) -> size c < max_size c ->
  cache (add i d c) = cache c ++ [(i, d)].
Proof.
  unfold add, setitem, popitem_first, size, ids. intros Hf Hs.
  rewrite upsert_absent by (try apply String.eqb_spec; exact Hf).
  rewrite length_app. simpl.
  destruct (Z.ltb_spec (max_size c)
              (Z.of_nat (length (cache c) + 1))); [lia | reflexivity].
Qed.

(** From a fresh cache and distinct ids, what survives is the tail of
    the insertion sequence that fits the capacity. *)
Lemma add_all_init (C : Z) (entries : list (string * doc)) :
  0 <= C -> NoDup (map fst entries) ->
  cache (add_all entries (init C))
  = skipn (length entries - Z.to_nat C) entries.
Proof.
  intros HC.
  induction entries as [|e es IH] using rev_ind; intros ND; [reflexivity|].
  rewrite map_app in ND. simpl in ND.
  assert (NDes : NoDup (map fst es)) by (eapply NoDup_app_remove_r; eauto).
  assert (Hfresh : ~ In (fst e) (map fst es)).
  { intros Hin. apply NoDup_remove_2 in ND. apply ND.
    rewrite app_nil_r. exact Hin. }
  specialize (IH NDes).
  rewrite add_all_snoc. destruct e as [i d]. simpl in *.
  set (c := add_all es (init C)) in *.
  assert (Hm : max_size c = C) by apply max_size_add_all.
  assert (Hf : ~ In i (ids c)).
  { unfold ids. rewrite IH. intros Hin. apply Hfresh.
    apply in_map_iff in Hin. destruct Hin as [y [Ey Hy]].
    apply in_map_iff. exists y. split; [exact Ey|].
    eapply In_skipn; eauto. }
  rewrite length_app. simpl.
  destruct (Z_lt_le_dec (Z.of_nat (length es)) C) as [Lt|Ge].
  - rewrite add_fresh_room; [| exact Hf |].
    + rewrite IH.
      replace (length es - Z.to_nat C)%nat with 0%nat by lia.
      replace (length es + 1 - Z.to_nat C)%nat with 0%nat by lia.
      reflexivity.
    + unfold size. rewrite IH, Hm, length_skipn. lia.
  - rewrite add_fresh_full; [| exact Hf |].
    + rewrite IH.
      replace (length es + 1 - Z.to_nat C)%nat
        with (S (length es - Z.to_nat C)) by lia.
      apply tl_skipn_snoc. lia.
    + unfold size. rewrite IH, Hm, length_skipn. lia.
Qed.

Lemma run_reads_transparent ks : forall c,
  run ks c = run (filter is_add ks) c.
Proof.
  induction ks as [|k ks IH]; intros c; [reflexivity|].
  destruct k; simpl; apply IH.
Qed.

(** Whatever the capacity, a reachable cache respects it or is empty. *)
Lemma reachable_bounded c :
  reachable c -> size c <= max_size c \/ cache c = [].
Proof.
  induction 1 as [m | i d c R IH].
  - right. reflexivity.
  - rewrite max_size_add.
    destruct (Z_lt_le_dec (max_size c) 0) as [Neg|Pos].
    + right. destruct IH as [IH|IH]; [unfold size in IH; lia|].
      unfold add, setitem, popitem_first. rewrite IH. simpl.
      destruct (Z.ltb_spec (max_size c) 1); [reflexivity | lia].
    + left. apply size_add_le; [exact Pos|].
      destruct IH as [IH|IH]; [exact IH|]. unfold size. rewrite IH. simpl. lia.
Qed.

End EventCacheFacts.

(** ** Claims about the cache *)

(** C3.  Take a capacity [C >= 0] and insert, into a fresh cache, more
    than [C] entries with distinct ids.  After each add the size is at
    most [C]; at the end the cache holds exactly the last [C] entries
    inserted, in insertion order.  Adding a fresh id to a full cache
    drops the entry at the front of the insertion order and nothing
    else.  [get], [contains] and [size] leave the cache as it is, so a
    run of calls ends in the cache its adds alone produce. *)
Theorem C3_fifo_eviction (C : Z) (entries : list (string * doc)) :
  0 <= C ->
  NoDup (map fst entries) ->
  C < Z.of_nat (length entries) ->
  (forall n,
     EventCache.size
       (EventCache.add_all (firstn n entries) (EventCache.init C)) <= C)
  /\ EventCache.cache (EventCache.add_all entries (EventCache.init C))
     = skipn (length entries - Z.to_nat C) entries
  /\ EventCache.size (EventCache.add_all entries (EventCache.init C)) = C
  /\ (forall c i d,
        EventCache.max_size c = C -> EventCache.size c = C ->
        ~ In i (EventCache.ids c) ->
        EventCache.cache (EventCache.add i d c)
        = tl (EventCache.cache c ++ [(i, d)]))
  /\ (forall c k,
        EventCache.is_add k = false ->
        fst (EventCache.perform c k) = c)
  /\ (forall ks c,
        EventCache.run ks c = EventCache.run (filter EventCache.is_add ks) c).
Proof.
  intros HC ND HN.
  pose proof (EventCacheFacts.add_all_init entries HC ND) as Hfinal.
  repeat split.
  - intros n.
    change C with (EventCache.max_size (EventCache.init C)) at 2.
    apply EventCacheFacts.size_add_all_le; simpl; [exact HC|].
    unfold EventCache.size. simpl. exact HC.
  - exact Hfinal.
  - unfold EventCache.size. rewrite Hfinal, length_skipn. lia.
  - intros c i d Hm Hs Hf.
    apply EventCacheFacts.add_fresh_full; [exact Hf | lia].
  - intros c k Hk. destruct k; simpl in *; [discriminate | reflexivity ..].
  - intros ks c. apply EventCacheFacts.run_reads_transparent.
Qed.

Lemma C3_fifo_eviction_witness :
  EventCache.cache
    (EventCache.add_all
       [("$a", bare_doc "$a"); ("$b", bare_doc "$b"); ("$c", bare_doc "$c")]
       (EventCache.init 2))
  = [("$b", bare_doc "$b"); ("$c", bare_doc "$c")].
Proof.
  refine (proj1 (proj2 (@C3_fifo_eviction 2
    [("$a", bare_doc "$a"); ("$b", bare_doc "$b"); ("$c", bare_doc "$c")]
    _ _ _))).
  - lia.
  - simpl. repeat constructor; simpl; intuition discriminate.
  - simpl. lia.
Defined.

(** C10.  In a cache the program can have built, [add] on an id that is
    already there stores the new record under that id, leaves the order
    of the ids as it was, evicts nothing, and leaves the size and every
    other id's record unchanged. *)
Theorem C10_overwrite_in_place (c : EventCache.t) (i : string) (d : doc) :
  EventCache.reachable c ->
  EventCache.contains i c = true ->
  EventCache.ids (EventCache.add i d c) = EventCache.ids c
  /\ EventCache.cache (EventCache.add i d c)
     = EventCache.setitem i d (EventCache.cache c)
  /\ EventCache.get i (EventCache.add i d c) = Some d
  /\ EventCache.size (EventCache.add i d c) = EventCache.size c
  /\ (forall j, j <> i ->
        EventCache.get j (EventCache.add i d c) = EventCache.get j c).
Proof.
  intros R Hin.
  assert (Hkey : In i (keys fst (EventCache.cache c))).
  { apply (has_key_In fst String.eqb String.eqb_spec). exact Hin. }
  assert (Hlen : length (EventCache.setitem i d (EventCache.cache c))
                 = length (EventCache.cache c)).
  { apply (length_upsert_present fst String.eqb String.eqb_spec (i, d)). exact Hkey. }
  assert (Hnoevict : EventCache.add i d c
                     = {| EventCache.max_size := EventCache.max_size c;
                          EventCache.cache :=
                            EventCache.setitem i d (EventCache.cache c) |}).
  { unfold EventCache.add. rewrite Hlen.
    destruct (EventCacheFacts.reachable_bounded R) as [B|E].
    - unfold EventCache.size in B.
      destruct (Z.ltb_spec (EventCache.max_size c)
                  (Z.of_nat (length (EventCache.cache c)))); [lia | reflexivity].
    - rewrite E in Hkey. contradiction. }
  rewrite Hnoevict. unfold EventCache.ids, EventCache.get, EventCache.size.
  simpl. repeat split.
  - apply (keys_upsert_present fst String.eqb String.eqb_spec (i, d)). exact Hkey.
  - unfold EventCache.setitem.
    now rewrite (find_key_upsert_same fst String.eqb String.eqb_spec (i, d)).
  - now rewrite Hlen.
  - intros j Hj. unfold EventCache.setitem.
    now rewrite (find_key_upsert_other fst String.eqb String.eqb_spec (i, d)).
Qed.

Lemma C10_overwrite_in_place_witness :
  EventCache.ids
    (EventCache.add "$a" (bare_doc "$z")
       (EventCache.add "$b" (bare_doc "$b")
          (EventCache.add "$a" (bare_doc "$a") (EventCache.init 2))))
  = ["$a"; "$b"].
Proof.
  refine (proj1 (@C10_overwrite_in_place
    (EventCache.add "$b" (bare_doc "$b")
       (EventCache.add "$a" (bare_doc "$a") (EventCache.init 2)))
    "$a" (bare_doc "$z") _ _)).
  - apply EventCache.reach_add, EventCache.reach_add, EventCache.reach_init.
  - reflexivity.
Defined.

(** ** The monad *)

Section Respects.
Variable R : world -> world -> Prop.
Hypothesis R_refl : forall w, R w w.
Hypothesis R_trans : forall a b c, R a b -> R b c -> R a c.

Lemma respects_ret A (a : A) : respects R (ret a).
Proof. intros w. apply R_refl. Qed.

Lemma respects_raise A (e : exn) : respects R (@raise A e).
Proof. intros w. apply R_refl. Qed.

Lemma respects_lift A (r : result A) : respects R (lift r).
Proof. intros w. apply R_refl. Qed.

Lemma respects_gets A (f : world -> A) : respects R (gets f).
Proof. intros w. apply R_refl. Qed.

Lemma respects_modify (f : world -> world) :
  (forall w, R w (f w)) -> respects R (modify f).
Proof. intros H w. apply H. Qed.

Lemma respects_bind A B (m : M A) (k : A -> M B) :
  respects R m -> (forall a, respects R (k a)) -> respects R (bind m k).
Proof.
  intros Hm Hk w. unfold bind. specialize (Hm w).
  destruct (m w) as [[a|e] w']; simpl in *; [|exact Hm].
  eapply R_trans; [exact Hm | apply Hk].
Qed.

Lemma respects_try_except A (m : M A) (h : exn -> M A) :
  respects R m -> (forall e, respects R (h e)) -> respects R (try_except m h).
Proof.
  intros Hm Hh w. unfold try_except. specialize (Hm w).
  destruct (m w) as [[a|e] w']; simpl in *; [exact Hm|].
  eapply R_trans; [exact Hm | apply Hh].
Qed.

Lemma respects_for_each A (body : A -> M unit) (l : list A) :
  (forall a, respects R (body a)) -> respects R (for_each body l).
Proof.
  intros Hb. induction l as [|x l IH]; simpl.
  - apply respects_ret.
  - apply respects_bind; [apply Hb | intros _; exact IH].
Qed.
End Respects.

Lemma unchanged_refl X (f : world -> X) w : unchanged f w w.
Proof. reflexivity. Qed.

Lemma unchanged_trans X (f : world -> X) a b c :
  unchanged f a b -> unchanged f b c -> unchanged f a c.
Proof. unfold unchanged. congruence. Qed.

Lemma store_grows_refl w : store_grows w w.
Proof. exists []. reflexivity. Qed.

Lemma store_grows_trans a b c :
  store_grows a b -> store_grows b c -> store_grows a c.
Proof.
  intros [d1 H1] [d2 H2]. exists (d1 ++ d2).
  now rewrite upsert_all_app, <- H1.
Qed.

Lemma log_grows_refl P w : log_grows P w w.
Proof. exists []. split; [now rewrite app_nil_r | constructor]. Qed.

Lemma log_grows_trans P a b c :
  log_grows P a b -> log_grows P b c -> log_grows P a c.
Proof.
  intros [l1 [H1 F1]] [l2 [H2 F2]]. exists (l1 ++ l2). split.
  - now rewrite H2, H1, app_assoc.
  - apply Forall_app. now split.
Qed.

Lemma log_grows_emit P a : P a -> respects (log_grows P) (emit a).
Proof.
  intros Pa w. exists [a]. split; [reflexivity | now repeat constructor].
Qed.

(** Equations for running a computation. *)
Lemma bind_run A B (m : M A) (k : A -> M B) w :
  bind m k w
  = match m w with
    | (Ok a, w') => k a w'
    | (Raise e, w') => (Raise e, w')
    end.
Proof. reflexivity. Qed.

Lemma bind_emit A (a : action) (k : unit -> M A) w :
  bind (emit a) k w = k tt (with_log (log w ++ [a]) w).
Proof. reflexivity. Qed.

Lemma bind_lift A B (r : result A) (k : A -> M B) w :
  bind (lift r) k w
  = match r with Ok a => k a w | Raise e => (Raise e, w) end.
Proof. destruct r; reflexivity. Qed.

Lemma bind_modify A (f : world -> world) (k : unit -> M A) w :
  bind (modify f) k w = k tt (f w).
Proof. reflexivity. Qed.

Lemma bind_gets A B (f : world -> A) (k : A -> M B) w :
  bind (gets f) k w = k (f w) w.
Proof. reflexivity. Qed.

Lemma try_except_run A (m : M A) (h : exn -> M A) w :
  try_except m h w
  = match m w with
    | (Ok a, w') => (Ok a, w')
    | (Raise e, w') => h e w'
    end.
Proof. reflexivity. Qed.

(** Leaves of the computations: one world update, written out. *)
Ltac frame_leaf :=
  let w := fresh "w" in
  intros w;
  unfold unchanged, sleep, log_error, log_warning, emit, cache_add, modify,
    gets, replace_one, write_text;
  simpl;
  repeat match goal with
         | |- context [match ?x with _ => _ end] => destruct x; simpl
         end;
  reflexivity.

(** Stepping a [respects] goal through the combinators, for a relation
    with the given proofs of reflexivity and transitivity. *)
Ltac frame_with refl trans :=
  repeat first
    [ assumption
    | match goal with
      | |- respects _ (ret _) => apply respects_ret; refl
      | |- respects _ (raise _) => apply respects_raise; refl
      | |- respects _ (lift _) => apply respects_lift; refl
      | |- respects _ (gets _) => apply respects_gets; refl
      | |- respects _ (bind _ _) =>
        apply respects_bind; [trans | | intros ?]
      | |- respects _ (try_except _ _) =>
        apply respects_try_except; [trans | | intros ?]
      | |- respects _ (for_each _ _) =>
        apply respects_for_each; [refl | trans | intros ?]
      | |- respects _ (match ?x with _ => _ end) => destruct x
      | |- respects _ (if ?x then _ else _) => destruct x
      end ].

Ltac unchanged_tac :=
  frame_with ltac:(idtac; intros ?; apply unchanged_refl)
             ltac:(idtac; intros ? ? ?; apply unchanged_trans);
  try solve [frame_leaf].

(** ** The sync path *)

Lemma collect_docs_unchanged X (f : world -> X) :
  (forall c w, f (with_cache c w) = f w) ->
  forall events acc, respects (unchanged f) (collect_docs events acc).
Proof.
  intros Hf events.
  induction events as [|e es IH]; intros acc; simpl.
  - unchanged_tac.
  - destruct (lacks_event_id e); [apply IH|].
    unchanged_tac.
    + intros w. apply Hf.
    + apply IH.
Qed.

Lemma _process_events_sync_token events :
  respects (unchanged sync_token) (_process_events events).
Proof.
  unfold _process_events. destruct events as [|e es]; unchanged_tac.
  apply collect_docs_unchanged. reflexivity.
Qed.

Lemma _process_events_state_file events :
  respects (unchanged state_file) (_process_events events).
Proof.
  unfold _process_events. destruct events as [|e es]; unchanged_tac.
  apply collect_docs_unchanged. reflexivity.
Qed.

Lemma _process_events_disk_faults events :
  respects (unchanged disk_faults) (_process_events events).
Proof.
  unfold _process_events. destruct events as [|e es]; unchanged_tac.
  apply collect_docs_unchanged. reflexivity.
Qed.

Lemma collect_docs_result events : forall acc w,
  fst (collect_docs events acc w) = sync_docs events acc.
Proof.
  induction events as [|e es IH]; intros acc w; simpl; [reflexivity|].
  destruct (lacks_event_id e); [apply IH|].
  unfold bind, lift. destruct (_serialize_event e) as [d|x]; [|reflexivity].
  unfold cache_add, modify. apply IH.
Qed.

Lemma no_store_fault_tl w l :
  store_faults w = l -> no_store_fault w ->
  no_store_fault (with_store_faults (tl l) w).
Proof.
  unfold no_store_fault. simpl. intros E H Hin. apply H. rewrite E.
  destruct l; [exact Hin | now right].
Qed.

Lemma replace_one_ok d w :
  no_store_fault w ->
  replace_one d w
  = (Ok tt,
     with_log (log w ++ [ReplaceOne d])
       (with_events_collection
          (upsert event_id id_eqb d (events_collection w))
          (with_store_faults (tl (store_faults w)) w))).
Proof.
  unfold no_store_fault, replace_one. intros H.
  destruct (store_faults w) as [|[|] fs]; try reflexivity.
  exfalso. apply H. now left.
Qed.

Lemma for_each_replace_one_ok ds : forall w,
  no_store_fault w ->
  fst (for_each replace_one ds w) = Ok tt
  /\ events_collection (snd (for_each replace_one ds w))
     = upsert_all event_id id_eqb (events_collection w) ds
  /\ no_store_fault (snd (for_each replace_one ds w)).
Proof.
  induction ds as [|d ds IH]; intros w H; simpl.
  - repeat split. exact H.
  - unfold bind. rewrite replace_one_ok by exact H.
    apply IH. unfold no_store_fault in *. simpl.
    intros Hin. apply H. destruct (store_faults w); [exact Hin | now right].
Qed.

(** What a fault-free [_process_events] does to the collection. *)
Lemma _process_events_store events w :
  no_store_fault w ->
  events_collection (exec (_process_events events) w)
  = match sync_docs events [] with
    | Ok ds => upsert_all event_id id_eqb (events_collection w) ds
    | Raise _ => events_collection w
    end
  /\ no_store_fault (exec (_process_events events) w).
Proof.
  intros H. unfold exec, _process_events.
  destruct events as [|e es]; [now split|].
  set (evs := e :: es).
  unfold bind.
  pose proof (collect_docs_result evs [] w) as Hr.
  pose proof (collect_docs_unchanged events_collection
                (fun _ _ => eq_refl) evs [] w) as He.
  pose proof (collect_docs_unchanged store_faults
                (fun _ _ => eq_refl) evs [] w) as Hf.
  unfold unchanged in He, Hf.
  destruct (collect_docs evs [] w) as [[ds|x] w1]; simpl in *; rewrite <- Hr.
  - assert (H1 : no_store_fault w1) by (unfold no_store_fault; now rewrite Hf).
    destruct ds as [|d ds]; [now split|].
    unfold try_except.
    destruct (for_each_replace_one_ok (d :: ds) H1) as [Ok1 [Ev1 Nf1]].
    destruct (for_each replace_one (d :: ds) w1) as [[u|x] w2];
      simpl in *; [|discriminate].
    split; [now rewrite Ev1, He | exact Nf1].
  - split; [exact He | unfold no_store_fault; now rewrite Hf].
Qed.

Lemma store_grows_replace_one d : respects store_grows (replace_one d).
Proof.
  intros w. unfold replace_one.
  destruct (store_faults w) as [|[|] fs]; simpl.
  - exists [d]. reflexivity.
  - exists []. reflexivity.
  - exists [d]. reflexivity.
Qed.

Ltac store_grows_tac :=
  frame_with ltac:(idtac; intros ?; apply store_grows_refl)
             ltac:(idtac; intros ? ? ?; apply store_grows_trans);
  try apply store_grows_replace_one;
  try solve [let w := fresh "w" in intros w; exists []; reflexivity].

Lemma store_grows_unchanged A (m : M A) :
  respects (unchanged events_collection) m -> respects store_grows m.
Proof. intros H w. exists []. apply H. Qed.

Lemma store_grows__process_events events :
  respects store_grows (_process_events events).
Proof.
  unfold _process_events. destruct events as [|e es]; store_grows_tac.
  apply store_grows_unchanged, collect_docs_unchanged. reflexivity.
Qed.

Lemma store_grows_NoDup w w' :
  store_grows w w' ->
  NoDup (keys event_id (events_collection w)) ->
  NoDup (keys event_id (events_collection w')).
Proof.
  intros [ds E] H. rewrite E.
  now apply (NoDup_keys_upsert_all event_id id_eqb id_eqb_spec).
Qed.

(** ** The backfill path *)

Section BackfillFacts.
Variable cfg : config.
Variable cl : client.

Lemma store_batch_ok ds cnt w :
  no_store_fault w ->
  fst (store_batch ds cnt w) = Ok (cnt + Z.of_nat (length ds))
  /\ events_collection (snd (store_batch ds cnt w))
     = upsert_all event_id id_eqb (events_collection w) ds
  /\ no_store_fault (snd (store_batch ds cnt w)).
Proof.
  intros H. unfold store_batch.
  destruct ds as [|d ds].
  - simpl. rewrite Z.add_0_r. now repeat split.
  - unfold try_except, bind.
    destruct (for_each_replace_one_ok (d :: ds) H) as [Ok1 [Ev1 Nf1]].
    destruct (for_each replace_one (d :: ds) w) as [[u|x] w2];
      simpl in *; [|discriminate].
    now repeat split.
Qed.

Lemma backfill_batches_store n : forall room_id tok cnt w,
  no_store_fault w ->
  events_collection (snd (backfill_batches cfg cl n room_id tok cnt w))
  = upsert_all event_id id_eqb (events_collection w)
      (walked_docs cfg cl n room_id tok)
  /\ no_store_fault (snd (backfill_batches cfg cl n room_id tok cnt w)).
Proof.
  induction n as [|n IH]; intros room_id tok cnt w H; simpl; [now split|].
  destruct (truthy_token tok); simpl; [|now split].
  rewrite bind_emit.
  set (w0 := with_log _ w).
  assert (H0 : no_store_fault w0) by exact H.
  change (events_collection w) with (events_collection w0).
  clearbody w0. clear H.
  destruct (room_messages cl room_id _ (backfill_batch_size cfg))
    as [e|chunk next]; [now split|].
  destruct (no_chunk chunk); [now split|].
  rewrite bind_lift.
  destruct (chunk_docs room_id (chunk_of chunk) []) as [ds|x]; [|now split].
  rewrite bind_run.
  destruct (store_batch_ok ds cnt H0) as [Ok1 [Ev1 Nf1]].
  destruct (store_batch ds cnt w0) as [[cnt'|x] w1]; simpl in *; [|discriminate].
  rewrite upsert_all_app, <- Ev1.
  destruct (hasattr next); [|now split].
  unfold sleep. rewrite bind_emit.
  set (w2 := with_log _ w1).
  change (events_collection w1) with (events_collection w2).
  apply IH. exact Nf1.
Qed.

Lemma backfill_room_store room_id limit w :
  no_store_fault w ->
  events_collection (exec (backfill_room cfg cl room_id limit) w)
  = upsert_all event_id id_eqb (events_collection w)
      (room_docs cfg cl room_id limit)
  /\ no_store_fault (exec (backfill_room cfg cl room_id limit) w).
Proof.
  intros H.
  unfold exec, backfill_room, backfill_room_body, room_docs.
  rewrite try_except_run.
  destruct (find_key fst String.eqb room_id (rooms cl)) as [[k r]|];
    [|now split].
  rewrite bind_lift.
  destruct (range_len limit (backfill_batch_size cfg)) as [n|x];
    [|now split].
  destruct (backfill_batches_store n room_id (prev_batch r) 0 H) as [Ev Nf].
  destruct (backfill_batches cfg cl n room_id (prev_batch r) 0 w)
    as [[c|x] w1]; simpl in *; (split; [exact Ev | exact Nf]).
Qed.

Lemma store_grows_store_batch ds cnt : respects store_grows (store_batch ds cnt).
Proof. unfold store_batch. destruct ds; store_grows_tac. Qed.

Lemma store_grows_backfill_batches n : forall room_id tok cnt,
  respects store_grows (backfill_batches cfg cl n room_id tok cnt).
Proof.
  induction n as [|n IH]; intros room_id tok cnt; simpl.
  - store_grows_tac.
  - pose proof store_grows_store_batch.
    store_grows_tac; auto.
Qed.

Lemma store_grows_backfill_room room_id limit :
  respects store_grows (backfill_room cfg cl room_id limit).
Proof.
  unfold backfill_room, backfill_room_body.
  pose proof store_grows_backfill_batches.
  store_grows_tac; auto.
Qed.

End BackfillFacts.

(** Every event of a batch that carries an id has its record among the
    documents of the batch, when the serializer raises on none. *)
Lemma sync_docs_covers events : forall acc ds,
  sync_docs events acc = Ok ds ->
  (forall d, In d acc -> In d ds)
  /\ (forall event,
        In event events ->
        lacks_event_id event = false ->
        exists d, _serialize_event event = Ok d /\ In d ds).
Proof.
  induction events as [|e es IH]; intros acc ds; simpl.
  - intros H. injection H as <-. split; [auto | intros event []].
  - destruct (lacks_event_id e) eqn:L.
    + intros H. destruct (IH _ _ H) as [Ha Hc]. split; [exact Ha|].
      intros event [<-|Hin] Hl; [congruence | now apply Hc].
    + destruct (_serialize_event e) as [d|x] eqn:S; [|discriminate].
      intros H. destruct (IH _ _ H) as [Ha Hc]. split.
      * intros d' Hd. apply Ha, in_or_app. now left.
      * intros event [<-|Hin] Hl; [|now apply Hc].
        exists d. split; [exact S|]. apply Ha, in_or_app. right. now left.
Qed.

(** ** Claims about the store *)

(** C2.  As long as no [replace_one] call fails, handing the same batch
    to [_process_events] a second time leaves the collection exactly as
    the first pass left it, and so does walking the same room again with
    [backfill_room].  The write itself appends the document when no
    stored document carries its [event_id], and otherwise puts it in the
    place of the stored one, leaving the ids and the number of documents
    as they were; a collection without duplicate ids stays so under both
    paths.  What each path leaves in the collection is the upsert, in
    order, of the documents it built: for [_process_events] the records
    of the events of the batch that carry an id (nothing when the
    serializer raises), for [backfill_room] the records of the walk; so
    every such event is in the collection afterwards under its id. *)
Theorem C2_replay_is_idempotent (cfg : config) (cl : client) (w : world)
  (events : list raw_event) (room_id : string) (limit : Z) :
  no_store_fault w ->
  events_collection
    (exec (_process_events events) (exec (_process_events events) w))
  = events_collection (exec (_process_events events) w)
  /\ events_collection
       (exec (backfill_room cfg cl room_id limit)
          (exec (backfill_room cfg cl room_id limit) w))
     = events_collection (exec (backfill_room cfg cl room_id limit) w)
  /\ (forall d s,
        has_key event_id id_eqb (event_id d) s = false ->
        upsert event_id id_eqb d s = s ++ [d])
  /\ (forall d s,
        has_key event_id id_eqb (event_id d) s = true ->
        find_key event_id id_eqb (event_id d) (upsert event_id id_eqb d s)
        = Some d
        /\ keys event_id (upsert event_id id_eqb d s) = keys event_id s
        /\ length (upsert event_id id_eqb d s) = length s)
  /\ (NoDup (keys event_id (events_collection w)) ->
      NoDup (keys event_id
               (events_collection (exec (_process_events events) w)))
      /\ NoDup (keys event_id
                  (events_collection
                     (exec (backfill_room cfg cl room_id limit) w))))
  /\ events_collection (exec (_process_events events) w)
     = match sync_docs events [] with
       | Ok ds => upsert_all event_id id_eqb (events_collection w) ds
       | Raise _ => events_collection w
       end
  /\ events_collection (exec (backfill_room cfg cl room_id limit) w)
     = upsert_all event_id id_eqb (events_collection w)
         (room_docs cfg cl room_id limit)
  /\ (forall ds event,
        sync_docs events [] = Ok ds ->
        In event events ->
        lacks_event_id event = false ->
        exists d,
          _serialize_event event = Ok d
          /\ In d ds
          /\ In (event_id d)
               (keys event_id
                  (events_collection (exec (_process_events events) w))))
  /\ (forall d,
        In d (room_docs cfg cl room_id limit) ->
        In (event_id d)
          (keys event_id
             (events_collection
                (exec (backfill_room cfg cl room_id limit) w)))).
Proof.
  intros H.
  destruct (_process_events_store events H) as [E1 N1].
  destruct (_process_events_store events N1) as [E2 _].
  destruct (backfill_room_store cfg cl room_id limit H) as [B1 M1].
  destruct (backfill_room_store cfg cl room_id limit M1) as [B2 _].
  split; [|split; [|split; [|split; [|split; [|split; [|split; [|split]]]]]]].
  6: exact E1.
  6: exact B1.
  6: { intros ds event Hs Hin Hl.
       destruct (sync_docs_covers events [] Hs) as [_ Hc].
       destruct (Hc event Hin Hl) as (d & Hd & Hind).
       exists d. split; [exact Hd|]. split; [exact Hind|].
       rewrite E1, Hs.
       apply (In_keys_upsert_all_new event_id id_eqb id_eqb_spec).
       unfold keys. now apply in_map. }
  6: { intros d Hin. rewrite B1.
       apply (In_keys_upsert_all_new event_id id_eqb id_eqb_spec).
       unfold keys. now apply in_map. }
  - rewrite E2. destruct (sync_docs events []) as [ds|x]; [|reflexivity].
    rewrite E1. apply (upsert_all_idempotent event_id id_eqb id_eqb_spec).
  - rewrite B2, B1.
    apply (upsert_all_idempotent event_id id_eqb id_eqb_spec).
  - intros d s Hk. apply (upsert_absent event_id id_eqb id_eqb_spec).
    intros Hin. apply (has_key_In event_id id_eqb id_eqb_spec) in Hin.
    congruence.
  - intros d s Hk. apply (has_key_In event_id id_eqb id_eqb_spec) in Hk.
    split; [|split].
    + apply (find_key_upsert_same event_id id_eqb id_eqb_spec).
    + now apply (keys_upsert_present event_id id_eqb id_eqb_spec).
    + now apply (length_upsert_present event_id id_eqb id_eqb_spec).
  - intros ND. split.
    + eapply store_grows_NoDup; [apply store_grows__process_events | exact ND].
    + eapply store_grows_NoDup; [apply store_grows_backfill_room | exact ND].
Qed.

Lemma C2_replay_is_idempotent_witness :
  events_collection
    (exec (_process_events [bare_event (Has "$a"); bare_event (Has "$a")])
       (exec (_process_events [bare_event (Has "$a"); bare_event (Has "$a")])
          (new_indexer default_config NoFile [])))
  = events_collection
      (exec (_process_events [bare_event (Has "$a"); bare_event (Has "$a")])
         (new_indexer default_config NoFile [])).
Proof.
  refine (proj1 (@C2_replay_is_idempotent default_config two_rooms_client
    (new_indexer default_config NoFile [])
    [bare_event (Has "$a"); bare_event (Has "$a")] "!B" 1000 _)).
  unfold no_store_fault. simpl. tauto.
Defined.

(** ** Claims about the serializer *)

Lemma collect_docs_filter events : forall acc w,
  collect_docs events acc w
  = collect_docs (filter carries_event_id events) acc w.
Proof.
  induction events as [|e es IH]; intros acc w; simpl; [reflexivity|].
  unfold carries_event_id at 1.
  destruct (lacks_event_id e) eqn:E; simpl; [apply IH|].
  rewrite E. rewrite !bind_lift.
  destruct (_serialize_event e) as [d|x]; [|reflexivity].
  unfold cache_add. rewrite !bind_modify. apply IH.
Qed.

Lemma chunk_docs_filter room_id chunk : forall acc,
  chunk_docs room_id chunk acc
  = chunk_docs room_id (filter carries_event_id chunk) acc.
Proof.
  induction chunk as [|e es IH]; intros acc; simpl; [reflexivity|].
  unfold carries_event_id at 1.
  destruct (lacks_event_id e) eqn:E; simpl; [apply IH|].
  rewrite E. destruct (backfill_doc room_id e) as [d|x]; [apply IH | reflexivity].
Qed.

Lemma carries_event_id_Has e :
  lacks_event_id e = false ->
  exists s, ev_event_id e = Has s /\ s <> EmptyString.
Proof.
  unfold lacks_event_id, truthy_str, hasattr.
  destruct (ev_event_id e) as [| |s]; simpl; try discriminate.
  intros H. exists s. split; [reflexivity|].
  destruct (String.eqb_spec s EmptyString); [discriminate | assumption].
Qed.

Lemma _serialize_event_event_id e d :
  _serialize_event e = Ok d -> event_id d = getattr (ev_event_id e) None.
Proof.
  unfold _serialize_event.
  destruct (int_timestamp e) as [ts|x]; [|discriminate].
  destruct (ev_is_text e).
  - destruct (text_content e); [|discriminate].
    intros H. injection H as <-. reflexivity.
  - destruct (hasattr (ev_content e)).
    + destruct (ev_content e); intros H; injection H as <-; reflexivity.
    + intros H. injection H as <-. reflexivity.
Qed.

Lemma sync_docs_identified events : forall acc ds,
  Forall has_identifier acc ->
  sync_docs events acc = Ok ds -> Forall has_identifier ds.
Proof.
  induction events as [|e es IH]; intros acc ds Hacc; simpl.
  - intros H. now injection H as <-.
  - destruct (lacks_event_id e) eqn:E; [now apply IH|].
    destruct (_serialize_event e) as [d|x] eqn:S; [|discriminate].
    apply IH. apply Forall_app. split; [exact Hacc|].
    constructor; [|constructor].
    destruct (carries_event_id_Has e E) as [s [Hs Ns]].
    exists s. split; [|exact Ns].
    rewrite (_serialize_event_event_id e S), Hs. reflexivity.
Qed.

Lemma chunk_docs_identified room_id chunk : forall acc ds,
  Forall has_identifier acc ->
  chunk_docs room_id chunk acc = Ok ds -> Forall has_identifier ds.
Proof.
  induction chunk as [|e es IH]; intros acc ds Hacc; simpl.
  - intros H. now injection H as <-.
  - destruct (lacks_event_id e) eqn:E; [now apply IH|].
    destruct (backfill_doc room_id e) as [d|x] eqn:S; [|discriminate].
    apply IH. apply Forall_app. split; [exact Hacc|].
    constructor; [|constructor].
    destruct (carries_event_id_Has e E) as [s [Hs Ns]].
    exists s. split; [|exact Ns].
    unfold backfill_doc in S.
    destruct (int_timestamp e); [|discriminate].
    injection S as <-. simpl. unfold event_id_of. now rewrite Hs.
Qed.

(** C5, as the spec has it, fails on the serializer: handed an event
    without an identifier, [_serialize_event] rejects nothing and
    returns a record whose [event_id] is [None]. *)
Lemma C5_serializer_does_not_reject :
  lacks_event_id (bare_event Missing) = true
  /\ (exists d, _serialize_event (bare_event Missing) = Ok d
                /\ event_id d = None)
  /\ ~ serializer_rejects (bare_event Missing).
Proof.
  split; [reflexivity|]. split.
  - eexists. split; reflexivity.
  - intros [e H]. discriminate H.
Qed.

(** C5, amended.  It is the two ingestion loops, not the serializer,
    that drop an event without identifier (attribute missing, [None] or
    empty), before any record is built for it: [_process_events] on a
    batch does in every world exactly what it does on the batch without
    these events, so for them nothing reaches the cache or the store and
    the other events are processed as if they were not there; the
    backfill loop builds the same documents with or without them; every
    document either loop sets out to store carries a non-empty id. *)
Theorem C5_events_without_id_are_skipped (events : list raw_event)
  (room_id : string) (w : world) :
  _process_events events w
  = _process_events (filter carries_event_id events) w
  /\ chunk_docs room_id events []
     = chunk_docs room_id (filter carries_event_id events) []
  /\ (forall ds, sync_docs events [] = Ok ds -> Forall has_identifier ds)
  /\ (forall ds, chunk_docs room_id events [] = Ok ds ->
                 Forall has_identifier ds).
Proof.
  split; [|split; [|split]].
  - unfold _process_events.
    destruct events as [|e es]; [reflexivity|].
    rewrite bind_run, (collect_docs_filter (e :: es) [] w).
    destruct (filter carries_event_id (e :: es)) as [|e' es'];
      [reflexivity|].
    now rewrite bind_run.
  - apply chunk_docs_filter.
  - intros ds. apply sync_docs_identified. constructor.
  - intros ds. apply chunk_docs_identified. constructor.
Qed.

(** C9, as the spec has it, fails: for an event with an identifier and
    no sender, the record holds [None] for the sender, not the empty
    string. *)
Lemma C9_missing_sender_is_none :
  lacks_event_id (bare_event (Has "$a")) = false
  /\ ev_sender (bare_event (Has "$a")) = Missing
  /\ (exists d, _serialize_event (bare_event (Has "$a")) = Ok d
                /\ sender d = None /\ type d = None)
  /\ ~ defaults_to_empty (bare_event (Has "$a")).
Proof.
  split; [reflexivity|]. split; [reflexivity|]. split.
  - eexists. repeat split.
  - intros [d [H [Hs _]]]. injection H as <-.
    specialize (Hs eq_refl). discriminate Hs.
Qed.

(** C9, amended.  A missing sender, type or origin_server_ts puts
    [None] into the record and a missing timestamp puts 0 there, in the
    sync path and in the backfill path alike.  A record is produced
    whenever the timestamp attribute does not hold [None] and, in the
    sync path, a text message has its body and msgtype attributes. *)
Theorem C9_missing_fields_default_to_none (event : raw_event)
  (room_id : string) :
  ev_timestamp event <> IsNone ->
  (ev_is_text event = true ->
   hasattr (ev_body event) && hasattr (ev_msgtype event) = true) ->
  (exists d, _serialize_event event = Ok d /\ defaults_to_none event d)
  /\ (exists d, backfill_doc room_id event = Ok d /\ defaults_to_none event d).
Proof.
  intros Hts Htext.
  assert (Hint : exists ts, int_timestamp event = Ok ts
                            /\ (ev_timestamp event = Missing -> ts = 0)).
  { unfold int_timestamp.
    destruct (ev_timestamp event) as [| |z]; simpl.
    - exists 0. now split.
    - congruence.
    - exists z. split; [reflexivity | discriminate]. }
  destruct Hint as [ts [Hint Hzero]].
  assert (Hnone : forall c,
            defaults_to_none event
              {| event_id := getattr (ev_event_id event) None;
                 room_id := getattr (ev_room_id event) None;
                 sender := getattr (ev_sender event) None;
                 type := getattr (ev_type event) None;
                 origin_server_ts := getattr (ev_origin_server_ts event) None;
                 timestamp := ts;
                 source := source_of event;
                 content := c;
                 backfilled := false |}).
  { intros c. unfold defaults_to_none. simpl.
    repeat split; try exact Hzero; intros E; now rewrite E. }
  split.
  - unfold _serialize_event. rewrite Hint.
    destruct (ev_is_text event).
    + specialize (Htext eq_refl). apply andb_true_iff in Htext.
      destruct Htext as [Hb Hm]. unfold text_content.
      destruct (ev_body event); try discriminate;
        destruct (ev_msgtype event); try discriminate;
        simpl; eexists; (split; [reflexivity | apply Hnone]).
    + destruct (hasattr (ev_content event));
        [destruct (ev_content event)|];
        eexists; (split; [reflexivity | apply Hnone]).
  - unfold backfill_doc. rewrite Hint. eexists. split; [reflexivity|].
    unfold defaults_to_none. simpl.
    repeat split; try exact Hzero; intros E; now rewrite E.
Qed.

Lemma C9_missing_fields_default_to_none_witness :
  exists d,
    _serialize_event (bare_event (Has "$a")) = Ok d
    /\ defaults_to_none (bare_event (Has "$a")) d.
Proof.
  refine (proj1 (@C9_missing_fields_default_to_none
                   (bare_event (Has "$a")) "!A" _ _)).
  - simpl. discriminate.
  - simpl. discriminate.
Defined.

(** ** The sync loop *)

Lemma _save_state_run w :
  _save_state w
  = (Ok tt,
     with_log (log w ++ save_log (sync_token w) w)
       (with_state_file (file_after_write (sync_token w) w)
          (with_disk_faults (tl (disk_faults w)) w))).
Proof.
  unfold _save_state, save_log, file_after_write.
  rewrite try_except_run, bind_gets. unfold write_text.
  destruct (disk_faults w) as [|[| |n] fs]; reflexivity.
Qed.

Lemma sync_iteration_returns resp w :
  sync_iteration (SyncReturns resp) w
  = try_except (for_each process_room (rooms_join resp)) sync_handler
      (after_checkpoint resp w).
Proof.
  unfold sync_iteration, after_checkpoint, exec.
  rewrite !try_except_run, bind_gets, bind_emit, bind_modify, bind_run.
  rewrite _save_state_run. reflexivity.
Qed.

Lemma with_log_app l1 l2 w :
  with_log (log (with_log (log w ++ l1) w) ++ l2) (with_log (log w ++ l1) w)
  = with_log (log w ++ l1 ++ l2) w.
Proof. unfold with_log. simpl. now rewrite app_assoc. Qed.

Lemma sync_iteration_raises e w :
  sync_iteration (SyncRaises e) w
  = (Ok tt,
     with_log
       (log w ++ [Sync (sync_token w); LogError "Error in sync loop";
                  Sleep (5 # 1)]) w).
Proof.
  unfold sync_iteration.
  rewrite try_except_run, bind_gets, bind_emit.
  unfold raise, log_error, sleep. rewrite bind_emit. unfold emit, modify.
  now rewrite !with_log_app.
Qed.

Lemma sync_iteration_not_response w :
  sync_iteration SyncNotResponse w
  = (Ok tt,
     with_log
       (log w ++ [Sync (sync_token w); LogError "Sync failed";
                  Sleep (5 # 1)]) w).
Proof.
  unfold sync_iteration.
  rewrite try_except_run, bind_gets, bind_emit.
  unfold log_error, sleep. rewrite bind_emit. unfold emit, modify.
  now rewrite !with_log_app.
Qed.

Lemma sync_iteration_total o w : fst (sync_iteration o w) = Ok tt.
Proof.
  unfold sync_iteration. rewrite try_except_run.
  match goal with |- context [match ?m with _ => _ end] => destruct m as [[[]|e] w'] end;
    reflexivity.
Qed.

Lemma process_room_sync_token entry :
  respects (unchanged sync_token) (process_room entry).
Proof.
  unfold process_room. destruct (snd entry).
  - unchanged_tac.
  - apply _process_events_sync_token.
Qed.

Lemma process_room_state_file entry :
  respects (unchanged state_file) (process_room entry).
Proof.
  unfold process_room. destruct (snd entry).
  - unchanged_tac.
  - apply _process_events_state_file.
Qed.

Lemma rest_of_cycle_sync_token resp :
  respects (unchanged sync_token)
    (try_except (for_each process_room (rooms_join resp)) sync_handler).
Proof.
  pose proof process_room_sync_token. unfold sync_handler.
  unchanged_tac; auto.
Qed.

Lemma rest_of_cycle_state_file resp :
  respects (unchanged state_file)
    (try_except (for_each process_room (rooms_join resp)) sync_handler).
Proof.
  pose proof process_room_state_file. unfold sync_handler.
  unchanged_tac; auto.
Qed.

Ltac log_grows_tac :=
  frame_with ltac:(idtac; intros ?; apply log_grows_refl)
             ltac:(idtac; intros ? ? ?; apply log_grows_trans);
  try (apply log_grows_emit; reflexivity);
  try solve [let w := fresh "w" in intros w; apply log_grows_refl].

Lemma log_grows_unchanged P A (m : M A) :
  respects (unchanged log) m -> respects (log_grows P) m.
Proof.
  intros H w. exists []. split; [|constructor].
  rewrite app_nil_r. apply H.
Qed.

Lemma log_grows_replace_one d :
  respects (log_grows not_write_state) (replace_one d).
Proof.
  intros w. unfold replace_one.
  destruct (store_faults w) as [|[|] fs]; simpl.
  - exists [ReplaceOne d]. split; [reflexivity | now repeat constructor].
  - exists []. split; [simpl; now rewrite app_nil_r | constructor].
  - exists [ReplaceOne d]. split; [reflexivity | now repeat constructor].
Qed.

Lemma log_grows__process_events events :
  respects (log_grows not_write_state) (_process_events events).
Proof.
  unfold _process_events. pose proof log_grows_replace_one.
  destruct events as [|e es]; log_grows_tac; auto.
  apply log_grows_unchanged, collect_docs_unchanged. reflexivity.
Qed.

Lemma rest_of_cycle_log resp :
  respects (log_grows not_write_state)
    (try_except (for_each process_room (rooms_join resp)) sync_handler).
Proof.
  unfold sync_handler, process_room.
  pose proof log_grows__process_events.
  log_grows_tac; auto.
Qed.

Lemma rest_of_cycle_store resp :
  respects store_grows
    (try_except (for_each process_room (rooms_join resp)) sync_handler).
Proof.
  unfold sync_handler, process_room.
  pose proof store_grows__process_events.
  store_grows_tac; auto.
Qed.

(** A cycle that got a response, split at the call of [_save_state]. *)
Lemma cycle_after_response (resp : SyncResponse) (w : world) :
  let w1 := after_checkpoint resp w in
  let w2 := exec (sync_iteration (SyncReturns resp)) w in
  sync_token w1 = Some (next_batch resp)
  /\ state_file w1 = file_after_write (Some (next_batch resp)) w
  /\ events_collection w1 = events_collection w
  /\ log w1
     = log w ++ Sync (sync_token w) :: save_log (Some (next_batch resp)) w
  /\ (exists l, log w2 = log w1 ++ l /\ Forall not_write_state l)
  /\ state_file w2 = state_file w1
  /\ sync_token w2 = Some (next_batch resp)
  /\ store_grows w1 w2.
Proof.
  intros w1 w2.
  assert (E1 : w1
               = with_log
                   (log w ++ Sync (sync_token w)
                      :: save_log (Some (next_batch resp)) w)
                   (with_state_file
                      (file_after_write (Some (next_batch resp)) w)
                      (with_disk_faults (tl (disk_faults w))
                         (with_sync_token (Some (next_batch resp)) w)))).
  { unfold w1, after_checkpoint, exec. rewrite _save_state_run.
    unfold with_log, save_log, file_after_write. simpl.
    now rewrite <- app_assoc. }
  assert (E2 : w2
               = snd (try_except (for_each process_room (rooms_join resp))
                        sync_handler w1)).
  { unfold w2, exec. now rewrite sync_iteration_returns. }
  assert (T1 : sync_token w1 = Some (next_batch resp)) by now rewrite E1.
  repeat split.
  - exact T1.
  - now rewrite E1.
  - now rewrite E1.
  - now rewrite E1.
  - rewrite E2. apply rest_of_cycle_log.
  - rewrite E2. apply rest_of_cycle_state_file.
  - rewrite <- T1, E2. apply rest_of_cycle_sync_token.
  - rewrite E2. apply rest_of_cycle_store.
Qed.


Lemma sync_loop_cons o os w :
  exec (sync_loop (o :: os)) w
  = exec (sync_loop os) (exec (sync_iteration o) w).
Proof.
  unfold exec, sync_loop. simpl. rewrite bind_run.
  pose proof (sync_iteration_total o w) as T.
  destruct (sync_iteration o w) as [[u|e] w1]; simpl in *;
    [reflexivity | discriminate].
Qed.


(** ** Claims about the sync loop and the cursor *)

(** C1, as the spec has it, fails: a cycle that receives one event
    writes the state file first and the document afterwards; at the
    point where the file already holds the new token, the collection
    is still empty. *)
Lemma C1_cursor_is_persisted_first :
  cycle_log (SyncReturns one_event_response)
    (new_indexer default_config NoFile [])
  = [Sync None; WriteState (Some "s1"); ReplaceOne (bare_doc "$a")]
  /\ state_file
       (after_checkpoint one_event_response
          (new_indexer default_config NoFile []))
     = StateJson (Some "s1")
  /\ events_collection
       (after_checkpoint one_event_response
          (new_indexer default_config NoFile []))
     = []
  /\ ~ store_then_checkpoint one_event_response
         (new_indexer default_config NoFile []).
Proof.
  repeat split. unfold store_then_checkpoint. vm_compute. discriminate.
Qed.

(** C1, amended.  A cycle that receives a response sets the cursor to
    the response's next token and calls [_save_state] before it looks at
    any event: at that point the collection is as the cycle found it.
    Whatever the rest of the cycle does, it writes the state file no
    more, leaves the file and the cursor as the save left them, and
    changes the collection by upserts only. *)
Theorem C1_checkpoint_then_store (resp : SyncResponse) (w : world) :
  let w1 := after_checkpoint resp w in
  let w2 := exec (sync_iteration (SyncReturns resp)) w in
  sync_token w1 = Some (next_batch resp)
  /\ state_file w1 = file_after_write (Some (next_batch resp)) w
  /\ events_collection w1 = events_collection w
  /\ log w1
     = log w ++ Sync (sync_token w) :: save_log (Some (next_batch resp)) w
  /\ (exists l, log w2 = log w1 ++ l /\ Forall not_write_state l)
  /\ state_file w2 = state_file w1
  /\ sync_token w2 = Some (next_batch resp)
  /\ store_grows w1 w2.
Proof. exact (cycle_after_response resp w). Qed.



(** C6, as the spec has it, fails: [_save_state] writes the state file
    in place, and a crash after the file has been opened for writing
    leaves neither the old token nor the new one there; the next start
    finds no cursor in it. *)
Lemma C6_crash_leaves_torn_file :
  state_file saving_indexer = StateJson (Some "s0")
  /\ sync_token saving_indexer = Some "s1"
  /\ state_file (_save_state_crash (Written 0) saving_indexer)
     = Torn (Some "s1") 0
  /\ ~ save_is_atomic (Written 0) saving_indexer
  /\ sync_token
       (exec _load_state
          (new_indexer default_config (Torn (Some "s1") 0) []))
     = None.
Proof.
  repeat split. intros [H|H]; discriminate H.
Qed.

(** C6, amended.  [_save_state] overwrites the state file in place with
    a single [write_text]; there is no temporary file and no rename.  A
    save that runs to its end without an I/O error leaves the complete
    document for the current cursor and never raises.  A crash during
    the save leaves the old file, the complete new document, or a
    truncated file holding only a prefix of the new document; loading
    such a file sets no cursor and logs a warning. *)
Theorem C6_save_overwrites_in_place (s : write_stage) (w : world) :
  (state_file (_save_state_crash s w) = state_file w
   \/ (exists n, state_file (_save_state_crash s w) = Torn (sync_token w) n)
   \/ state_file (_save_state_crash s w) = StateJson (sync_token w))
  /\ (forall n,
        state_file (_save_state_crash (Written n) w)
        = Torn (sync_token w) n)
  /\ state_file (_save_state_crash Closed w) = StateJson (sync_token w)
  /\ eval _save_state w = Ok tt
  /\ state_file (exec _save_state w) = file_after_write (sync_token w) w
  /\ (forall tok n w',
        state_file w' = Torn tok n ->
        exec _load_state w'
        = with_log (log w' ++ [LogWarning "Error loading state"]) w')
  /\ (forall tok w',
        state_file w' = StateJson tok ->
        sync_token (exec _load_state w') = tok).
Proof.
  split; [|split; [|split; [|split; [|split; [|split]]]]].
  - destruct s as [|n|]; simpl; eauto.
  - reflexivity.
  - reflexivity.
  - unfold eval. now rewrite _save_state_run.
  - unfold exec. now rewrite _save_state_run.
  - intros tok n w' H. unfold exec, _load_state.
    rewrite bind_gets, H. reflexivity.
  - intros tok w' H. unfold exec, _load_state.
    rewrite bind_gets, H. reflexivity.
Qed.

(** ** The walk *)

Section WalkFacts.
Variable cfg : config.
Variable cl : client.

Lemma backfill_batches_no_token n room_id tok cnt w :
  truthy_token tok = false ->
  backfill_batches cfg cl (S n) room_id tok cnt w = (Ok cnt, w).
Proof. intros H. simpl. now rewrite H. Qed.


Lemma backfill_batches_raises n room_id s cnt w e :
  s <> EmptyString ->
  room_messages cl room_id s (backfill_batch_size cfg) = MessagesRaises e ->
  backfill_batches cfg cl (S n) room_id (Some s) cnt w
  = (Raise e,
     with_log (log w ++ [RoomMessages room_id s (backfill_batch_size cfg)]) w).
Proof.
  intros Hs Hr. simpl.
  destruct (String.eqb_spec s EmptyString); [contradiction|]. simpl.
  rewrite bind_emit, Hr. reflexivity.
Qed.


Lemma store_batch_total ds cnt w : exists c, eval (store_batch ds cnt) w = Ok c.
Proof.
  unfold eval, store_batch. destruct ds as [|d ds]; [now exists cnt|].
  rewrite try_except_run, bind_run.
  destruct (for_each replace_one (d :: ds) w) as [[u|x] w1]; simpl; eauto.
Qed.

Lemma backfill_room_total room_id limit w :
  exists c, eval (backfill_room cfg cl room_id limit) w = Ok c.
Proof.
  unfold eval, backfill_room. rewrite try_except_run.
  destruct (backfill_room_body cfg cl room_id limit w) as [[c|x] w1];
    simpl; eauto.
Qed.

Lemma backfill_room_catches room_id limit w e :
  eval (backfill_room_body cfg cl room_id limit) w = Raise e ->
  eval (backfill_room cfg cl room_id limit) w = Ok 0.
Proof.
  unfold eval, backfill_room. rewrite try_except_run.
  destruct (backfill_room_body cfg cl room_id limit w) as [[c|x] w1];
    simpl; [discriminate | reflexivity].
Qed.

(** A room whose first request fails counts zero, in every world. *)
Lemma backfill_room_first_request_fails room_id limit w k r s e :
  find_key fst String.eqb room_id (rooms cl) = Some (k, r) ->
  prev_batch r = Some s ->
  room_messages cl room_id s (backfill_batch_size cfg) = MessagesRaises e ->
  eval (backfill_room cfg cl room_id limit) w = Ok 0.
Proof.
  intros Hf Hp Hr.
  unfold eval, backfill_room, backfill_room_body.
  rewrite try_except_run, Hf, bind_lift.
  destruct (range_len limit (backfill_batch_size cfg)) as [[|n]|x];
    try reflexivity.
  rewrite Hp. destruct (String.eqb_spec s EmptyString) as [->|Hs]; [reflexivity|].
  erewrite backfill_batches_raises by eassumption. reflexivity.
Qed.


Lemma backfill_rooms_cons room_id rest results w :
  exists c w1,
    backfill_room cfg cl room_id 1000 w = (Ok c, w1)
    /\ backfill_rooms cfg cl (room_id :: rest) results w
       = backfill_rooms cfg cl rest
           (upsert fst String.eqb (room_id, c) results)
           (with_log (log w1 ++ [Sleep (1 # 2)]) w1).
Proof.
  destruct (backfill_room_total room_id 1000 w) as [c Hc].
  unfold eval in Hc. simpl. rewrite bind_run.
  destruct (backfill_room cfg cl room_id 1000 w) as [r w1].
  simpl in Hc. subst r. exists c, w1. split; [reflexivity|].
  unfold sleep. now rewrite bind_emit.
Qed.

Lemma backfill_rooms_total ids : forall results w,
  exists res, eval (backfill_rooms cfg cl ids results) w = Ok res.
Proof.
  induction ids as [|i ids IH]; intros results w.
  - now exists results.
  - destruct (backfill_rooms_cons i ids results w) as (c & w1 & _ & E).
    unfold eval. rewrite E. apply IH.
Qed.

Lemma backfill_rooms_keys ids : forall results w res,
  eval (backfill_rooms cfg cl ids results) w = Ok res ->
  forall r, In r (keys fst res) <-> In r (keys fst results) \/ In r ids.
Proof.
  induction ids as [|i ids IH]; intros results w res H r.
  - injection H as <-. simpl. tauto.
  - destruct (backfill_rooms_cons i ids results w) as (c & w1 & _ & E).
    unfold eval in H. rewrite E in H. rewrite (IH _ _ _ H r). simpl.
    split.
    + intros [Hin|Hin]; [|tauto].
      apply (In_keys_upsert_inv fst String.eqb String.eqb_spec) in Hin.
      simpl in Hin. destruct Hin as [->|Hin]; tauto.
    + intros [Hin|[<-|Hin]]; [| |tauto]; left.
      * now apply (In_keys_upsert_keep fst String.eqb String.eqb_spec).
      * apply (In_keys_upsert_same fst String.eqb String.eqb_spec (i, c)).
Qed.

Lemma backfill_rooms_keys_NoDup ids : forall results w res,
  NoDup (keys fst results ++ ids) ->
  eval (backfill_rooms cfg cl ids results) w = Ok res ->
  keys fst res = keys fst results ++ ids.
Proof.
  induction ids as [|i ids IH]; intros results w res ND H.
  - injection H as <-. now rewrite app_nil_r.
  - destruct (backfill_rooms_cons i ids results w) as (c & w1 & _ & E).
    unfold eval in H. rewrite E in H.
    assert (Hi : ~ In (fst (i, c)) (keys fst results)).
    { simpl. apply NoDup_remove_2 in ND. intros Hin. apply ND.
      apply in_or_app. now left. }
    rewrite (upsert_absent fst String.eqb String.eqb_spec _ _ Hi) in H.
    apply IH in H.
    + rewrite H. unfold keys. rewrite map_app. simpl.
      now rewrite <- app_assoc.
    + unfold keys. rewrite map_app. simpl. now rewrite <- app_assoc.
Qed.

Lemma backfill_rooms_zero room_id :
  (forall w, eval (backfill_room cfg cl room_id 1000) w = Ok 0) ->
  forall ids results w res,
    In room_id ids
    \/ find_key fst String.eqb room_id results = Some (room_id, 0) ->
    eval (backfill_rooms cfg cl ids results) w = Ok res ->
    find_key fst String.eqb room_id res = Some (room_id, 0).
Proof.
  intros Hz ids.
  induction ids as [|i ids IH]; intros results w res Hin H.
  - injection H as <-. destruct Hin as [[]|Hin]. exact Hin.
  - destruct (backfill_rooms_cons i ids results w) as (c & w1 & Hc & E).
    unfold eval in H. rewrite E in H.
    apply IH in H; [exact H|].
    destruct (String.eqb_spec room_id i) as [<-|Ne].
    + right. specialize (Hz w). unfold eval in Hz. rewrite Hc in Hz.
      injection Hz as ->.
      apply (find_key_upsert_same fst String.eqb String.eqb_spec
               (room_id, 0)).
    + destruct Hin as [[Hi|Hin]|Hin]; [congruence | now left | right].
      rewrite (find_key_upsert_other fst String.eqb String.eqb_spec (i, c));
        [exact Hin | exact Ne].
Qed.

Lemma find_key_In_keys A K (key : A -> K) (K_eqb : K -> K -> bool)
  (K_eqb_spec : forall x y, reflect (x = y) (K_eqb x y)) k a l :
  find_key key K_eqb k l = Some a -> In k (keys key l).
Proof.
  intros H. apply (has_key_In key K_eqb K_eqb_spec).
  unfold has_key. now rewrite H.
Qed.

End WalkFacts.

(** ** Claims about the backfill walker *)



Section WalkCount.
Variable cfg : config.
Variable cl : client.

Lemma backfill_batches_count n : forall room_id tok cnt w c,
  no_store_fault w ->
  eval (backfill_batches cfg cl n room_id tok cnt) w = Ok c ->
  c = cnt + Z.of_nat (length (walked_docs cfg cl n room_id tok)).
Proof.
  unfold eval.
  induction n as [|n IH]; intros room_id tok cnt w c Hn; simpl.
  - intros H. injection H as <-. lia.
  - destruct (truthy_token tok); simpl.
    2: { intros H. injection H as <-. lia. }
    rewrite bind_emit.
    set (w0 := with_log _ w).
    assert (H0 : no_store_fault w0) by exact Hn. clearbody w0.
    destruct (room_messages cl room_id _ (backfill_batch_size cfg))
      as [e|chunk next]; [discriminate|].
    destruct (no_chunk chunk).
    { intros H. injection H as <-. simpl. lia. }
    rewrite bind_lift.
    destruct (chunk_docs room_id (chunk_of chunk) []) as [ds|x];
      [|discriminate].
    rewrite bind_run.
    destruct (store_batch_ok ds cnt H0) as [Ok1 [_ Nf1]].
    destruct (store_batch ds cnt w0) as [[c1|x] w1]; cbn [fst snd] in *;
      [|discriminate].
    injection Ok1 as ->. rewrite length_app.
    destruct (hasattr next).
    + unfold sleep. rewrite bind_emit. intros H.
      apply IH in H; [|exact Nf1]. lia.
    + intros H. injection H as <-. simpl. lia.
Qed.

Lemma backfill_room_count room_id limit w :
  no_store_fault w ->
  exists c,
    eval (backfill_room cfg cl room_id limit) w = Ok c
    /\ 0 <= c <= Z.of_nat (length (room_docs cfg cl room_id limit))
    /\ (forall c',
          eval (backfill_room_body cfg cl room_id limit) w = Ok c' ->
          c = c'
          /\ c = Z.of_nat (length (room_docs cfg cl room_id limit))).
Proof.
  intros Hn.
  unfold eval, backfill_room, backfill_room_body, room_docs.
  rewrite try_except_run.
  destruct (find_key fst String.eqb room_id (rooms cl)) as [[k r]|].
  - rewrite bind_lift.
    destruct (range_len limit (backfill_batch_size cfg)) as [n|x].
    + pose proof (@backfill_batches_count n room_id (prev_batch r) 0 w) as Hc.
      unfold eval in Hc.
      destruct (backfill_batches cfg cl n room_id (prev_batch r) 0 w)
        as [[c|x] w1]; cbn [fst snd] in *.
      * specialize (Hc c Hn eq_refl). exists c. split; [reflexivity|].
        split; [lia|]. intros c' H. injection H as <-. split; [reflexivity|lia].
      * exists 0. split; [reflexivity|]. split; [lia | discriminate].
    + exists 0. simpl. split; [reflexivity|]. split; [lia | discriminate].
  - exists 0. simpl. split; [reflexivity|]. split; [lia|].
    intros c' H. injection H as <-. now split.
Qed.

End WalkCount.

Section SweepCounts.
Variable cfg : config.
Variable cl : client.

(** Whether a walk ends by an exception is decided by the server's
    answers alone: a failing write never leaves [store_batch]. *)
Lemma backfill_batches_exception n : forall room_id tok cnt w,
  match eval (backfill_batches cfg cl n room_id tok cnt) w with
  | Raise e => walk_exception cfg cl n room_id tok = Some e
  | Ok _ => walk_exception cfg cl n room_id tok = None
  end.
Proof.
  unfold eval.
  induction n as [|n IH]; intros room_id tok cnt w; simpl; [reflexivity|].
  destruct (truthy_token tok); simpl; [|reflexivity].
  rewrite bind_emit.
  set (w0 := with_log _ w). clearbody w0.
  destruct (room_messages cl room_id _ (backfill_batch_size cfg))
    as [e|chunk next]; [reflexivity|].
  destruct (no_chunk chunk); [reflexivity|].
  rewrite bind_lift.
  destruct (chunk_docs room_id (chunk_of chunk) []) as [ds|x];
    [|reflexivity].
  rewrite bind_run.
  destruct (store_batch_total ds cnt w0) as [c Hc]. unfold eval in Hc.
  destruct (store_batch ds cnt w0) as [r w1]. simpl in Hc. subst r.
  destruct (hasattr next); [|reflexivity].
  unfold sleep. rewrite bind_emit. apply IH.
Qed.

(** A walk that an exception ends is counted as 0, whatever it stored
    before. *)
Lemma backfill_room_interrupted room_id limit k r n e :
  find_key fst String.eqb room_id (rooms cl) = Some (k, r) ->
  range_len limit (backfill_batch_size cfg) = Ok n ->
  walk_exception cfg cl n room_id (prev_batch r) = Some e ->
  forall w, eval (backfill_room cfg cl room_id limit) w = Ok 0.
Proof.
  intros Hf Hn He w. apply backfill_room_catches with (e := e).
  unfold eval, backfill_room_body. rewrite Hf, bind_lift, Hn.
  pose proof (backfill_batches_exception n room_id (prev_batch r) 0 w) as X.
  unfold eval in X.
  destruct (backfill_batches cfg cl n room_id (prev_batch r) 0 w)
    as [[c|x] w1]; simpl in *; congruence.
Qed.

(** A walk that no exception ends is counted by the documents it
    stored, on a database that does not fail. *)
Lemma backfill_room_completed room_id limit k r n :
  find_key fst String.eqb room_id (rooms cl) = Some (k, r) ->
  range_len limit (backfill_batch_size cfg) = Ok n ->
  walk_exception cfg cl n room_id (prev_batch r) = None ->
  forall w,
    no_store_fault w ->
    eval (backfill_room cfg cl room_id limit) w
    = Ok (Z.of_nat (length (room_docs cfg cl room_id limit))).
Proof.
  intros Hf Hn He w Hw.
  destruct (backfill_room_count cfg cl room_id limit Hw) as (c & E & _ & H).
  rewrite E.
  assert (B : exists c',
            eval (backfill_room_body cfg cl room_id limit) w = Ok c').
  { unfold eval, backfill_room_body. rewrite Hf, bind_lift, Hn.
    pose proof (backfill_batches_exception n room_id (prev_batch r) 0 w) as X.
    unfold eval in X.
    destruct (backfill_batches cfg cl n room_id (prev_batch r) 0 w)
      as [[c'|x] w1]; simpl in *; [eauto | congruence]. }
  destruct B as [c' B]. destruct (H c' B) as [_ ->]. reflexivity.
Qed.

Lemma backfill_rooms_step room_id rest results w :
  no_store_fault w ->
  exists c w1,
    backfill_room cfg cl room_id 1000 w = (Ok c, w1)
    /\ no_store_fault (with_log (log w1 ++ [Sleep (1 # 2)]) w1)
    /\ events_collection (with_log (log w1 ++ [Sleep (1 # 2)]) w1)
       = upsert_all event_id id_eqb (events_collection w)
           (room_docs cfg cl room_id 1000)
    /\ backfill_rooms cfg cl (room_id :: rest) results w
       = backfill_rooms cfg cl rest
           (upsert fst String.eqb (room_id, c) results)
           (with_log (log w1 ++ [Sleep (1 # 2)]) w1).
Proof.
  intros Hw.
  destruct (backfill_rooms_cons cfg cl room_id rest results w)
    as (c & w1 & Hc & E).
  exists c, w1. split; [exact Hc|].
  destruct (backfill_room_store cfg cl room_id 1000 Hw) as [S N].
  unfold exec in S, N. rewrite Hc in S, N.
  split; [exact N|]. split; [exact S | exact E].
Qed.

(** An entry of the result is the count of the room's walk, when that
    count is the same in every world the walk can start in. *)
Lemma backfill_rooms_count room_id c :
  (forall w, no_store_fault w ->
             eval (backfill_room cfg cl room_id 1000) w = Ok c) ->
  forall ids results w res,
    no_store_fault w ->
    In room_id ids
    \/ find_key fst String.eqb room_id results = Some (room_id, c) ->
    eval (backfill_rooms cfg cl ids results) w = Ok res ->
    find_key fst String.eqb room_id res = Some (room_id, c).
Proof.
  intros Hz ids.
  induction ids as [|i ids IH]; intros results w res Hw Hin H.
  - injection H as <-. destruct Hin as [[]|Hin]. exact Hin.
  - destruct (backfill_rooms_step i ids results Hw)
      as (c' & w1 & Hc & Hw1 & _ & E).
    unfold eval in H. rewrite E in H.
    apply IH in H; [exact H | exact Hw1 |].
    destruct (String.eqb_spec room_id i) as [<-|Ne].
    + right. specialize (Hz w Hw). unfold eval in Hz. rewrite Hc in Hz.
      injection Hz as ->.
      apply (find_key_upsert_same fst String.eqb String.eqb_spec
               (room_id, c)).
    + destruct Hin as [[Hi|Hin]|Hin]; [congruence | now left | right].
      rewrite (find_key_upsert_other fst String.eqb String.eqb_spec (i, c'));
        [exact Hin | exact Ne].
Qed.

(** What the sweep leaves in the collection. *)
Lemma backfill_rooms_store ids : forall results w,
  no_store_fault w ->
  events_collection (exec (backfill_rooms cfg cl ids results) w)
  = upsert_all event_id id_eqb (events_collection w)
      (concat (map (fun room_id => room_docs cfg cl room_id 1000) ids)).
Proof.
  induction ids as [|i ids IH]; intros results w Hw; [reflexivity|].
  destruct (backfill_rooms_step i ids results Hw)
    as (c & w1 & _ & Hw1 & S & E).
  unfold exec in *. rewrite E, (IH _ _ Hw1), S.
  cbn [map concat]. now rewrite upsert_all_app.
Qed.

End SweepCounts.

(** C8.  [backfill_all_rooms] never raises and returns a dict whose keys
    are the joined rooms, in the client's order.  A room whose walk
    raises is counted as 0 by [backfill_room], which catches the error;
    so a room whose first request for history fails has the entry 0 in
    the result, next to the entries of all the other rooms.  The entry
    of every room is the count of its own walk: 0 when an exception
    ends the walk, at the first request or at a later one, and the
    number of documents the walk stored when none does, as long as the
    database does not fail; the collection then holds the documents of
    all walks, those of an interrupted walk included. *)
Theorem C8_failing_room_does_not_abort (cfg : config) (cl : client)
  (w : world) :
  exists results,
    eval (backfill_all_rooms cfg cl) w = Ok results
    /\ (forall room_id,
          In room_id (keys fst (rooms cl)) <-> In room_id (keys fst results))
    /\ (NoDup (keys fst (rooms cl)) ->
        keys fst results = keys fst (rooms cl))
    /\ (forall room_id k r s e,
          find_key fst String.eqb room_id (rooms cl) = Some (k, r) ->
          prev_batch r = Some s ->
          room_messages cl room_id s (backfill_batch_size cfg)
          = MessagesRaises e ->
          find_key fst String.eqb room_id results = Some (room_id, 0))
    /\ (forall room_id limit e w',
          eval (backfill_room_body cfg cl room_id limit) w' = Raise e ->
          eval (backfill_room cfg cl room_id limit) w' = Ok 0)
    /\ (forall room_id k r n e,
          find_key fst String.eqb room_id (rooms cl) = Some (k, r) ->
          range_len 1000 (backfill_batch_size cfg) = Ok n ->
          walk_exception cfg cl n room_id (prev_batch r) = Some e ->
          find_key fst String.eqb room_id results = Some (room_id, 0))
    /\ (no_store_fault w ->
        forall room_id k r n,
          find_key fst String.eqb room_id (rooms cl) = Some (k, r) ->
          range_len 1000 (backfill_batch_size cfg) = Ok n ->
          walk_exception cfg cl n room_id (prev_batch r) = None ->
          find_key fst String.eqb room_id results
          = Some (room_id,
                  Z.of_nat (length (room_docs cfg cl room_id 1000))))
    /\ (no_store_fault w ->
        events_collection (exec (backfill_all_rooms cfg cl) w)
        = upsert_all event_id id_eqb (events_collection w)
            (concat
               (map (fun room_id => room_docs cfg cl room_id 1000)
                  (keys fst (rooms cl))))).
Proof.
  unfold backfill_all_rooms.
  destruct (@backfill_rooms_total cfg cl (keys fst (rooms cl)) [] w)
    as [results H].
  exists results. split; [exact H|].
  split; [|split; [|split; [|split; [|split; [|split]]]]].
  5: { intros room_id k r n e Hf Hn He.
       apply (@backfill_rooms_zero cfg cl room_id) with (3 := H).
       - eapply backfill_room_interrupted; eassumption.
       - left. eapply (find_key_In_keys fst String.eqb String.eqb_spec).
         exact Hf. }
  5: { intros Hw room_id k r n Hf Hn He.
       apply (@backfill_rooms_count cfg cl room_id) with (4 := H);
         [|exact Hw|].
       - eapply backfill_room_completed; eassumption.
       - left. eapply (find_key_In_keys fst String.eqb String.eqb_spec).
         exact Hf. }
  5: { intros Hw. now apply backfill_rooms_store. }
  - intros room_id.
    rewrite (@backfill_rooms_keys cfg cl _ _ _ _ H room_id). simpl. tauto.
  - intros ND. now apply (@backfill_rooms_keys_NoDup cfg cl _ [] w).
  - intros room_id k r s e Hf Hp Hr.
    apply (@backfill_rooms_zero cfg cl room_id) with (3 := H).
    + intros w'. eapply backfill_room_first_request_fails; eassumption.
    + left. eapply (find_key_In_keys fst String.eqb String.eqb_spec).
      exact Hf.
  - intros room_id limit e w'. apply backfill_room_catches.
Qed.

Lemma C8_failing_room_does_not_abort_witness :
  exists results,
    eval (backfill_all_rooms default_config late_failure_client)
      (new_indexer default_config NoFile [])
    = Ok results
    /\ find_key fst String.eqb "!A" results = Some ("!A", 0)
    /\ find_key fst String.eqb "!B" results = Some ("!B", 2)
    /\ events_collection
         (exec (backfill_all_rooms default_config late_failure_client)
            (new_indexer default_config NoFile []))
       = [bare_backfill_doc "!A" "$a1"; bare_backfill_doc "!B" "$b1";
          bare_backfill_doc "!B" "$b2"].
Proof.
  assert (Hw : no_store_fault (new_indexer default_config NoFile [])).
  { unfold no_store_fault. simpl. tauto. }
  destruct (@C8_failing_room_does_not_abort default_config
              late_failure_client (new_indexer default_config NoFile []))
    as (results & E & _ & _ & _ & _ & Hi & Hc & Hs).
  exists results. split; [exact E|]. split; [|split].
  - apply (Hi "!A" "!A" {| prev_batch := Some "t0" |} 10%nat NetworkError);
      reflexivity.
  - apply (Hc Hw "!B" "!B" {| prev_batch := Some "t1" |} 10%nat);
      reflexivity.
  - exact (Hs Hw).
Defined.

(** The sweep over two rooms, the first of which cannot be fetched. *)
Example backfill_all_rooms_partial :
  eval (backfill_all_rooms default_config two_rooms_client)
    (new_indexer default_config NoFile [])
  = Ok [("!A", 0); ("!B", 2)].
Proof. reflexivity. Qed.

(** * Further properties of the code *)

(** ** EventCache as a dict *)

Lemma find_key_app_absent A K (key : A -> K) (K_eqb : K -> K -> bool) k l l' :
  find_key key K_eqb k l = None ->
  find_key key K_eqb k (l ++ l') = find_key key K_eqb k l'.
Proof.
  induction l as [|x l IH]; simpl; [reflexivity|].
  destruct (K_eqb (key x) k); [discriminate | exact IH].
Qed.

Lemma find_key_absent A K (key : A -> K) (K_eqb : K -> K -> bool)
  (K_eqb_spec : forall x y, reflect (x = y) (K_eqb x y)) k l :
  ~ In k (keys key l) -> find_key key K_eqb k l = None.
Proof.
  intros H. destruct (find_key key K_eqb k l) as [a|] eqn:E; [|reflexivity].
  exfalso. apply H. eapply find_key_In_keys; eauto.
Qed.

Lemma map_tl_comm A B (f : A -> B) (l : list A) : map f (tl l) = tl (map f l).
Proof. destruct l; reflexivity. Qed.

Lemma NoDup_tl A (l : list A) : NoDup l -> NoDup (tl l).
Proof. destruct l; [auto | inversion 1; auto]. Qed.

Lemma find_key_snoc_other (i j : string) (d : doc) l :
  j <> i ->
  find_key fst String.eqb j (l ++ [(i, d)]) = find_key fst String.eqb j l.
Proof.
  intros N. induction l as [|x l IH]; simpl.
  - destruct (String.eqb_spec i j); [congruence | reflexivity].
  - destruct (fst x =? j)%string; [reflexivity | exact IH].
Qed.

Lemma find_key_snoc_same (i : string) (d : doc) l :
  find_key fst String.eqb i l = None ->
  find_key fst String.eqb i (l ++ [(i, d)]) = Some (i, d).
Proof.
  intros H. rewrite (find_key_app_absent _ _ _ _ [(i, d)] H). simpl.
  now rewrite String.eqb_refl.
Qed.

Lemma reachable_invariant (c : EventCache.t) :
  EventCache.reachable c ->
  NoDup (EventCache.ids c)
  /\ EventCache.size c <= Z.max 0 (EventCache.max_size c)
  /\ (EventCache.max_size c <= 0 -> EventCache.cache c = []).
Proof.
  intros R.
  assert (ND : NoDup (EventCache.ids c)).
  { induction R as [m | i d c R IH]; [constructor|].
    unfold EventCache.ids, EventCache.add, EventCache.setitem,
      EventCache.popitem_first.
    pose proof (NoDup_keys_upsert fst String.eqb String.eqb_spec (i, d) _ IH)
      as H.
    destruct (_ <? _); simpl; [|exact H].
    unfold keys in H. rewrite map_tl_comm. now apply NoDup_tl. }
  destruct (EventCacheFacts.reachable_bounded R) as [B|E].
  - split; [exact ND|]. split; [lia|].
    intros Hm. unfold EventCache.size in B.
    destruct (EventCache.cache c); [reflexivity | simpl in B; lia].
  - split; [exact ND|]. unfold EventCache.size. rewrite E. simpl.
    split; [lia | reflexivity].
Qed.

(** The cache the program builds is a dict with a bound: its ids are
    pairwise distinct, and it never holds more entries than its
    capacity, none at all when the capacity is zero or negative. *)
Theorem EventCache_invariant (c : EventCache.t) :
  EventCache.reachable c ->
  NoDup (EventCache.ids c)
  /\ EventCache.size c <= Z.max 0 (EventCache.max_size c)
  /\ (EventCache.max_size c <= 0 -> EventCache.cache c = []).
Proof. exact (@reachable_invariant c). Qed.

Lemma EventCache_invariant_witness :
  NoDup
    (EventCache.ids
       (EventCache.add "$b" (bare_doc "$b")
          (EventCache.add "$a" (bare_doc "$a") (EventCache.init 1)))).
Proof.
  refine (proj1 (@EventCache_invariant
    (EventCache.add "$b" (bare_doc "$b")
       (EventCache.add "$a" (bare_doc "$a") (EventCache.init 1))) _)).
  apply EventCache.reach_add, EventCache.reach_add, EventCache.reach_init.
Defined.

(** With a capacity of at least one, what was just added can be read
    back: the entry evicted by an [add] is never the one it inserted.
    Every other id reads as before, except the oldest one when the
    cache was full and the added id new, which is gone. *)
Theorem EventCache_add_then_get (c : EventCache.t) (i : string) (d : doc) :
  EventCache.reachable c ->
  1 <= EventCache.max_size c ->
  EventCache.get i (EventCache.add i d c) = Some d
  /\ EventCache.contains i (EventCache.add i d c) = true
  /\ (forall j,
        j <> i ->
        EventCache.get j (EventCache.add i d c) = EventCache.get j c
        \/ (EventCache.get j (EventCache.add i d c) = None
            /\ hd_error (EventCache.ids c) = Some j
            /\ EventCache.contains i c = false
            /\ EventCache.size c = EventCache.max_size c)).
Proof.
  intros R Hm.
  destruct (reachable_invariant R) as (ND & B & _).
  assert (Hget : forall c', EventCache.get i c' = Some d ->
                            EventCache.contains i c' = true).
  { intros c'. unfold EventCache.get, EventCache.contains, has_key.
    destruct (find_key _ _ _ _); [reflexivity | discriminate]. }
  unfold EventCache.size in B.
  destruct (in_dec string_dec i (keys fst (EventCache.cache c))) as [Hin|Hout].
  - assert (E : EventCache.cache (EventCache.add i d c)
                = upsert fst String.eqb (i, d) (EventCache.cache c)).
    { unfold EventCache.add, EventCache.setitem.
      rewrite (length_upsert_present fst String.eqb String.eqb_spec (i, d)
                 _ Hin).
      destruct (Z.ltb_spec (EventCache.max_size c)
                  (Z.of_nat (length (EventCache.cache c)))); [lia|reflexivity]. }
    assert (G : EventCache.get i (EventCache.add i d c) = Some d).
    { unfold EventCache.get. rewrite E.
      now rewrite (find_key_upsert_same fst String.eqb String.eqb_spec (i, d)). }
    split; [exact G|]. split; [now apply Hget|].
    intros j Hj. left. unfold EventCache.get. rewrite E.
    now rewrite (find_key_upsert_other fst String.eqb String.eqb_spec (i, d)).
  - assert (Hnone : find_key fst String.eqb i (EventCache.cache c) = None)
      by now apply (find_key_absent fst String.eqb String.eqb_spec).
    assert (Hc : EventCache.contains i c = false).
    { unfold EventCache.contains, has_key. now rewrite Hnone. }
    unfold EventCache.get, EventCache.contains, has_key.
    destruct (Z_lt_le_dec (Z.of_nat (length (EventCache.cache c)))
                (EventCache.max_size c)) as [Room|Full].
    + rewrite (@EventCacheFacts.add_fresh_room i d c Hout Room).
      rewrite (@find_key_snoc_same i d _ Hnone). simpl. repeat split.
      intros j Hj. left. now rewrite find_key_snoc_other.
    + assert (Full' : EventCache.max_size c <= EventCache.size c)
        by (unfold EventCache.size; lia).
      rewrite (@EventCacheFacts.add_fresh_full i d c Hout Full').
      unfold EventCache.ids, EventCache.size in *.
      destruct (EventCache.cache c) as [|[k0 d0] rest];
        [simpl in Full; lia|].
      simpl in *.
      destruct (String.eqb_spec k0 i) as [->|Nk]; [discriminate|].
      rewrite (@find_key_snoc_same i d _ Hnone). simpl. repeat split.
      intros j Hj. rewrite find_key_snoc_other by exact Hj.
      destruct (String.eqb_spec k0 j) as [->|Nj]; [right | now left].
      inversion ND as [|? ? Hj0 _]; subst.
      rewrite (find_key_absent fst String.eqb String.eqb_spec _ _ Hj0).
      repeat split; [now rewrite Hnone | lia].
Qed.

Lemma EventCache_add_then_get_witness :
  EventCache.get "$c"
    (EventCache.add "$c" (bare_doc "$c")
       (EventCache.add "$b" (bare_doc "$b")
          (EventCache.add "$a" (bare_doc "$a") (EventCache.init 2))))
  = Some (bare_doc "$c").
Proof.
  refine (proj1 (@EventCache_add_then_get
    (EventCache.add "$b" (bare_doc "$b")
       (EventCache.add "$a" (bare_doc "$a") (EventCache.init 2)))
    "$c" (bare_doc "$c") _ _)).
  - apply EventCache.reach_add, EventCache.reach_add, EventCache.reach_init.
  - simpl. lia.
Defined.

(** ** Reading the collection after a batch *)

Section LastWrite.
Variables A K : Type.
Variable key : A -> K.
Variable K_eqb : K -> K -> bool.
Hypothesis K_eqb_spec : forall x y, reflect (x = y) (K_eqb x y).

Lemma find_key_upsert a k l :
  find_key key K_eqb k (upsert key K_eqb a l)
  = if K_eqb (key a) k then Some a else find_key key K_eqb k l.
Proof.
  destruct (K_eqb_spec (key a) k) as [<-|N].
  - now apply find_key_upsert_same.
  - apply find_key_upsert_other; [exact K_eqb_spec | congruence].
Qed.

(** After a batch of upserts a key reads as the last entry of the batch
    that carries it, and as before when none does. *)
Lemma find_key_upsert_all k xs : forall l,
  find_key key K_eqb k (upsert_all key K_eqb l xs)
  = match find_key key K_eqb k (rev xs) with
    | Some a => Some a
    | None => find_key key K_eqb k l
    end.
Proof.
  induction xs as [|a xs IH] using rev_ind; intros l; [reflexivity|].
  rewrite upsert_all_app, rev_app_distr. simpl.
  rewrite find_key_upsert.
  destruct (K_eqb (key a) k); [reflexivity | apply IH].
Qed.
End LastWrite.

(** ** One batch through [_process_events] *)

Lemma written_prefix_nil ds : written_prefix [] ds = ds.
Proof. destruct ds; reflexivity. Qed.

Lemma replace_one_run d w :
  replace_one d w
  = match store_faults w with
    | true :: _ =>
      (Raise StorageError, with_store_faults (tl (store_faults w)) w)
    | _ =>
      (Ok tt,
       with_log (log w ++ [ReplaceOne d])
         (with_events_collection
            (upsert event_id id_eqb d (events_collection w))
            (with_store_faults (tl (store_faults w)) w)))
    end.
Proof. reflexivity. Qed.

Lemma for_each_replace_one_prefix ds : forall w,
  events_collection (snd (for_each replace_one ds w))
  = upsert_all event_id id_eqb (events_collection w)
      (written_prefix (store_faults w) ds)
  /\ log (snd (for_each replace_one ds w))
     = log w ++ map ReplaceOne (written_prefix (store_faults w) ds)
  /\ fst (for_each replace_one ds w)
     = if (length (written_prefix (store_faults w) ds) <? length ds)%nat
       then Raise StorageError else Ok tt.
Proof.
  induction ds as [|d ds IH]; intros w.
  - simpl. rewrite app_nil_r. now repeat split.
  - simpl for_each. rewrite bind_run, replace_one_run.
    destruct (store_faults w) as [|[|] fs] eqn:F;
      cbn [tl fst snd written_prefix length map];
      [| rewrite app_nil_r; now repeat split |];
      match goal with
      | |- context [for_each replace_one ds ?w'] =>
        destruct (IH w') as (I1 & I2 & I3);
          destruct (for_each replace_one ds w') as [r w2]
      end;
      cbn [fst snd events_collection store_faults log with_log
             with_events_collection with_store_faults] in *;
      rewrite ?written_prefix_nil in *;
      (repeat split;
       [ exact I1
       | rewrite I2, <- app_assoc; reflexivity
       | rewrite I3; reflexivity ]).
Qed.

Lemma collect_docs_log events acc w :
  log (snd (collect_docs events acc w)) = log w.
Proof. apply (collect_docs_unchanged log (fun _ _ => eq_refl)). Qed.

Lemma collect_docs_store_faults events acc w :
  store_faults (snd (collect_docs events acc w)) = store_faults w.
Proof. apply (collect_docs_unchanged store_faults (fun _ _ => eq_refl)). Qed.

Lemma collect_docs_events_collection events acc w :
  events_collection (snd (collect_docs events acc w)) = events_collection w.
Proof. apply (collect_docs_unchanged events_collection (fun _ _ => eq_refl)). Qed.

Lemma cache_entry_serialized e d :
  lacks_event_id e = false ->
  _serialize_event e = Ok d ->
  cache_entry d = (event_id_of e, d).
Proof.
  intros L S. unfold cache_entry, event_id_of.
  rewrite (_serialize_event_event_id e S).
  destruct (carries_event_id_Has e L) as [s [-> _]]. reflexivity.
Qed.

Lemma collect_docs_cache events : forall acc w,
  cache (snd (collect_docs events acc w))
  = EventCache.add_all (map cache_entry (serialized_prefix events)) (cache w).
Proof.
  induction events as [|e es IH]; intros acc w; simpl; [reflexivity|].
  destruct (lacks_event_id e) eqn:L; [apply IH|].
  rewrite bind_lift.
  destruct (_serialize_event e) as [d|x] eqn:S; [|reflexivity].
  unfold cache_add. rewrite bind_modify, IH.
  cbn [map]. rewrite (cache_entry_serialized e L S). reflexivity.
Qed.

Lemma sync_docs_serialized_prefix events : forall acc ds,
  sync_docs events acc = Ok ds -> ds = acc ++ serialized_prefix events.
Proof.
  induction events as [|e es IH]; intros acc ds; simpl.
  - intros H. injection H as <-. now rewrite app_nil_r.
  - destruct (lacks_event_id e); [apply IH|].
    destruct (_serialize_event e) as [d|x]; [|discriminate].
    intros H. apply IH in H. now rewrite H, <- app_assoc.
Qed.

(** The whole effect of [_process_events] on a batch. *)
Lemma _process_events_effect events w :
  cache (exec (_process_events events) w)
  = EventCache.add_all (map cache_entry (serialized_prefix events)) (cache w)
  /\ match sync_docs events [] with
     | Raise e =>
       eval (_process_events events) w = Raise e
       /\ events_collection (exec (_process_events events) w)
          = events_collection w
       /\ log (exec (_process_events events) w) = log w
       /\ store_faults (exec (_process_events events) w) = store_faults w
     | Ok ds =>
       let written := written_prefix (store_faults w) ds in
       eval (_process_events events) w = Ok tt
       /\ events_collection (exec (_process_events events) w)
          = upsert_all event_id id_eqb (events_collection w) written
       /\ log (exec (_process_events events) w)
          = log w ++ map ReplaceOne written
            ++ (if (length written <? length ds)%nat
                then [LogError "Error storing events"] else [])
     end.
Proof.
  unfold exec, eval, _process_events.
  destruct events as [|e es].
  - simpl. rewrite app_nil_r. now repeat split.
  - set (evs := e :: es). rewrite bind_run.
    pose proof (collect_docs_result evs [] w) as Hr.
    pose proof (collect_docs_cache evs [] w) as Hc.
    pose proof (collect_docs_log evs [] w) as Hl.
    pose proof (collect_docs_store_faults evs [] w) as Hf.
    pose proof (collect_docs_events_collection evs [] w) as He.
    destruct (collect_docs evs [] w) as [[ds|x] w1];
      cbn [fst snd] in *; rewrite <- Hr; [|now repeat split].
    destruct ds as [|d ds].
    + simpl. rewrite app_nil_r. now repeat split.
    + rewrite try_except_run.
      destruct (for_each_replace_one_prefix (d :: ds) w1) as (P1 & P2 & P3).
      rewrite Hf, He, Hl in *.
      set (written := written_prefix (store_faults w) (d :: ds)) in *.
      assert (Pc : cache (snd (for_each replace_one (d :: ds) w1)) = cache w1).
      { assert (Pr : respects (unchanged cache)
                       (for_each replace_one (d :: ds))) by unchanged_tac.
        apply Pr. }
      destruct (for_each replace_one (d :: ds) w1) as [[[]|x] w2];
        cbn [fst snd] in *.
      * destruct (length written <? length (d :: ds))%nat; [discriminate|].
        rewrite app_nil_r. split; [congruence|]. now repeat split.
      * destruct (length written <? length (d :: ds))%nat; [|discriminate].
        unfold log_error, emit, modify.
        cbn [fst snd cache events_collection log with_log].
        split; [congruence|]. repeat split.
        -- exact P1.
        -- rewrite P2. now rewrite <- app_assoc.
Qed.

Lemma written_prefix_no_fault ds : forall faults,
  ~ In true faults -> written_prefix faults ds = ds.
Proof.
  induction ds as [|d ds IH]; intros faults H; [reflexivity|].
  simpl. destruct faults as [|[|] fs]; [reflexivity | |].
  - exfalso. apply H. now left.
  - f_equal. apply IH. intros Hin. apply H. now right.
Qed.

Lemma serialized_prefix_identified events :
  Forall has_identifier (serialized_prefix events).
Proof.
  induction events as [|e es IH]; simpl; [constructor|].
  destruct (lacks_event_id e) eqn:L; [exact IH|].
  destruct (_serialize_event e) as [d|x] eqn:S; constructor; [|exact IH].
  destruct (carries_event_id_Has e L) as [s [Hs Ns]].
  exists s. split; [|exact Ns].
  now rewrite (_serialize_event_event_id e S), Hs.
Qed.

(** [_process_events] puts into the cache, in batch order and under its
    own [event_id], every record it has built before the serializer
    raises, if it does; what the database does afterwards plays no part
    in it, so the cache can hold records the store never received. *)
Theorem _process_events_fills_cache (events : list raw_event) (w : world) :
  cache (exec (_process_events events) w)
  = EventCache.add_all (map cache_entry (serialized_prefix events)) (cache w)
  /\ Forall (fun entry => event_id (snd entry) = Some (fst entry))
       (map cache_entry (serialized_prefix events))
  /\ (forall ds, sync_docs events [] = Ok ds -> serialized_prefix events = ds).
Proof.
  split; [apply _process_events_effect|]. split.
  - apply Forall_map.
    eapply Forall_impl; [|apply serialized_prefix_identified].
    intros d [s [Hs _]]. unfold cache_entry. simpl. now rewrite Hs.
  - intros ds H. now rewrite (sync_docs_serialized_prefix events [] H).
Qed.

Lemma _process_events_raises events w e :
  sync_docs events [] = Raise e ->
  eval (_process_events events) w = Raise e
  /\ events_collection (exec (_process_events events) w)
     = events_collection w
  /\ log (exec (_process_events events) w) = log w
  /\ store_faults (exec (_process_events events) w) = store_faults w.
Proof.
  intros H. pose proof (_process_events_effect events w) as [_ E].
  now rewrite H in E.
Qed.

(** When the serializer raises on one event of a batch, [_process_events]
    passes the exception on and nothing of the batch is written: the
    collection and the log are as before, no [replace_one] is attempted. *)
Theorem _process_events_unserializable (events : list raw_event) (w : world)
  (e : exn) :
  sync_docs events [] = Raise e ->
  eval (_process_events events) w = Raise e
  /\ events_collection (exec (_process_events events) w)
     = events_collection w
  /\ log (exec (_process_events events) w) = log w
  /\ store_faults (exec (_process_events events) w) = store_faults w.
Proof. exact (@_process_events_raises events w e). Qed.

Lemma _process_events_unserializable_witness :
  events_collection
    (exec (_process_events
             [bare_event (Has "$a"); null_timestamp_event "$b"])
       (new_indexer default_config NoFile []))
  = [].
Proof.
  refine (proj1 (proj2 (@_process_events_unserializable
    [bare_event (Has "$a"); null_timestamp_event "$b"]
    (new_indexer default_config NoFile []) TypeError _))).
  reflexivity.
Defined.

(** When the database fails in the middle of a batch, the documents
    before the failing write are stored and those after it are not even
    attempted; [_process_events] logs one error and returns normally. *)
Theorem _process_events_partial_write (events : list raw_event) (w : world)
  (ds : list doc) :
  sync_docs events [] = Ok ds ->
  let written := written_prefix (store_faults w) ds in
  eval (_process_events events) w = Ok tt
  /\ events_collection (exec (_process_events events) w)
     = upsert_all event_id id_eqb (events_collection w) written
  /\ log (exec (_process_events events) w)
     = log w ++ map ReplaceOne written
       ++ (if (length written <? length ds)%nat
           then [LogError "Error storing events"] else []).
Proof.
  intros H. pose proof (_process_events_effect events w) as [_ E].
  now rewrite H in E.
Qed.

Lemma _process_events_partial_write_witness :
  events_collection
    (exec (_process_events [bare_event (Has "$a"); bare_event (Has "$b")])
       (with_store_faults [false; true]
          (new_indexer default_config NoFile [])))
  = [bare_doc "$a"].
Proof.
  refine (proj1 (proj2 (@_process_events_partial_write
    [bare_event (Has "$a"); bare_event (Has "$b")]
    (with_store_faults [false; true] (new_indexer default_config NoFile []))
    [bare_doc "$a"; bare_doc "$b"] _))).
  reflexivity.
Defined.

(** After a batch that is stored without failure, looking an id up in
    the collection gives the record of the last event of the batch with
    that id, and what was stored before when the batch has none. *)
Theorem _process_events_last_write_wins (events : list raw_event) (w : world)
  (ds : list doc) (k : option string) :
  no_store_fault w ->
  sync_docs events [] = Ok ds ->
  find_key event_id id_eqb k
    (events_collection (exec (_process_events events) w))
  = match find_key event_id id_eqb k (rev ds) with
    | Some d => Some d
    | None => find_key event_id id_eqb k (events_collection w)
    end.
Proof.
  intros Hn H. pose proof (_process_events_effect events w) as [_ E].
  rewrite H in E. destruct E as (_ & E & _). rewrite E.
  rewrite (written_prefix_no_fault ds _ Hn).
  apply (find_key_upsert_all event_id id_eqb id_eqb_spec).
Qed.

Lemma _process_events_last_write_wins_witness :
  find_key event_id id_eqb (Some "$a")
    (events_collection
       (exec (_process_events [bare_event (Has "$a")])
          (new_indexer default_config NoFile [])))
  = Some (bare_doc "$a").
Proof.
  refine (@_process_events_last_write_wins [bare_event (Has "$a")]
    (new_indexer default_config NoFile []) [bare_doc "$a"] (Some "$a") _ _).
  - unfold no_store_fault. simpl. tauto.
  - reflexivity.
Defined.

(** ** Runs of the sync loop *)

Lemma sync_iteration_sync_token o w :
  sync_token (exec (sync_iteration o) w)
  = match o with
    | SyncReturns resp => Some (next_batch resp)
    | _ => sync_token w
    end.
Proof.
  destruct o as [e| |resp].
  - unfold exec. now rewrite sync_iteration_raises.
  - unfold exec. now rewrite sync_iteration_not_response.
  - now destruct (cycle_after_response resp w) as (_ & _ & _ & _ & _ & _ & T & _).
Qed.

(** Whatever fails along the way, the cursor the loop holds after any
    number of turns is the next token of the last sync response it
    received, and the cursor it started with when it received none. *)
Theorem sync_loop_cursor (answers : list sync_outcome) (w : world) :
  sync_token (exec (sync_loop answers) w)
  = last_next_batch answers (sync_token w).
Proof.
  revert w. induction answers as [|o os IH]; intros w; [reflexivity|].
  rewrite sync_loop_cons, IH, sync_iteration_sync_token.
  destruct o; reflexivity.
Qed.

Lemma after_checkpoint_disk_faults resp w :
  disk_faults (after_checkpoint resp w) = tl (disk_faults w).
Proof.
  unfold after_checkpoint, exec. now rewrite _save_state_run.
Qed.

Lemma process_room_disk_faults entry :
  respects (unchanged disk_faults) (process_room entry).
Proof.
  unfold process_room. destruct (snd entry).
  - unchanged_tac.
  - apply _process_events_disk_faults.
Qed.

Lemma rest_of_cycle_disk_faults resp :
  respects (unchanged disk_faults)
    (try_except (for_each process_room (rooms_join resp)) sync_handler).
Proof.
  pose proof process_room_disk_faults. unfold sync_handler.
  unchanged_tac; auto.
Qed.

Lemma sync_iteration_checkpoint o w :
  disk_faults w = [] ->
  loaded_token (state_file w) = sync_token w ->
  disk_faults (exec (sync_iteration o) w) = []
  /\ loaded_token (state_file (exec (sync_iteration o) w))
     = sync_token (exec (sync_iteration o) w).
Proof.
  intros Hd Hl. destruct o as [e| |resp].
  - unfold exec. rewrite sync_iteration_raises. now split.
  - unfold exec. rewrite sync_iteration_not_response. now split.
  - destruct (cycle_after_response resp w)
      as (_ & F1 & _ & _ & _ & F2 & T2 & _).
    split.
    + unfold exec. rewrite sync_iteration_returns.
      pose proof (rest_of_cycle_disk_faults resp (after_checkpoint resp w))
        as D.
      unfold unchanged in D. rewrite D, after_checkpoint_disk_faults, Hd.
      reflexivity.
    + rewrite F2, F1, T2. unfold file_after_write. now rewrite Hd.
Qed.

(** As long as the state file can be written, the cursor on disk keeps
    up with the cursor in memory through any run of the loop: an indexer
    started on the file the run leaves behind resumes from the cursor
    the run ended with. *)
Theorem sync_loop_restart_resumes (answers : list sync_outcome) (w : world) :
  disk_faults w = [] ->
  loaded_token (state_file w) = sync_token w ->
  loaded_token (state_file (exec (sync_loop answers) w))
  = sync_token (exec (sync_loop answers) w)
  /\ (forall cfg stored,
        sync_token
          (exec _load_state
             (new_indexer cfg (state_file (exec (sync_loop answers) w))
                stored))
        = sync_token (exec (sync_loop answers) w)).
Proof.
  intros Hd Hl.
  assert (H : disk_faults (exec (sync_loop answers) w) = []
              /\ loaded_token (state_file (exec (sync_loop answers) w))
                 = sync_token (exec (sync_loop answers) w)).
  { revert w Hd Hl.
    induction answers as [|o os IH]; intros w Hd Hl; [now split|].
    rewrite sync_loop_cons.
    destruct (sync_iteration_checkpoint o w Hd Hl) as [Hd' Hl'].
    now apply IH. }
  destruct H as [_ H]. split; [exact H|].
  intros cfg stored. rewrite <- H.
  generalize (state_file (exec (sync_loop answers) w)).
  intros [|tok|tok n]; reflexivity.
Qed.

Lemma sync_loop_restart_resumes_witness :
  sync_token
    (exec _load_state
       (new_indexer default_config
          (state_file
             (exec (sync_loop [SyncReturns one_event_response;
                               SyncRaises NetworkError])
                (new_indexer default_config NoFile [])))
          []))
  = Some "s1".
Proof.
  refine (proj2 (@sync_loop_restart_resumes
    [SyncReturns one_event_response; SyncRaises NetworkError]
    (new_indexer default_config NoFile []) _ _) default_config []);
    reflexivity.
Defined.

(** ** What the two drivers never do to the collection *)

Lemma length_upsert_all_ge ds : forall l : list doc,
  (length l <= length (upsert_all event_id id_eqb l ds))%nat.
Proof.
  induction ds as [|d ds IH]; intros l; [apply le_n|].
  rewrite upsert_all_cons.
  pose proof (length_upsert_bounds event_id id_eqb d l).
  specialize (IH (upsert event_id id_eqb d l)). lia.
Qed.

Lemma store_grows_keeps w w' :
  store_grows w w' ->
  (forall k,
     In k (keys event_id (events_collection w)) ->
     In k (keys event_id (events_collection w')))
  /\ (length (events_collection w) <= length (events_collection w'))%nat
  /\ (NoDup (keys event_id (events_collection w)) ->
      NoDup (keys event_id (events_collection w'))).
Proof.
  intros G. split; [|split].
  - destruct G as [ds E]. intros k Hk. rewrite E.
    now apply (In_keys_upsert_all_keep event_id id_eqb id_eqb_spec).
  - destruct G as [ds E]. rewrite E. apply length_upsert_all_ge.
  - now apply store_grows_NoDup.
Qed.

Lemma store_grows_sync_iteration o : respects store_grows (sync_iteration o).
Proof.
  intros w. destruct o as [e| |resp].
  - rewrite sync_iteration_raises. exists []. reflexivity.
  - rewrite sync_iteration_not_response. exists []. reflexivity.
  - destruct (cycle_after_response resp w)
      as (_ & _ & E & _ & _ & _ & _ & G).
    destruct G as [ds G]. exists ds. now rewrite <- E.
Qed.

Lemma store_grows_sync_loop answers : respects store_grows (sync_loop answers).
Proof.
  unfold sync_loop. pose proof store_grows_sync_iteration.
  store_grows_tac; auto.
Qed.

Lemma store_grows_backfill_rooms cfg cl ids : forall results,
  respects store_grows (backfill_rooms cfg cl ids results).
Proof.
  induction ids as [|i ids IH]; intros results; simpl.
  - store_grows_tac.
  - pose proof (store_grows_backfill_room cfg cl).
    store_grows_tac; auto.
Qed.

(** Neither the sync loop nor the sweep over all rooms ever removes a
    document: every id stored before a run is stored after it, the
    collection does not get shorter, and ids that were unique stay
    unique, whatever the server answers and whichever writes fail. *)
Theorem drivers_never_delete (cfg : config) (cl : client)
  (answers : list sync_outcome) (w : world) :
  let after_sync := events_collection (exec (sync_loop answers) w) in
  let after_sweep := events_collection (exec (backfill_all_rooms cfg cl) w) in
  (forall k,
     In k (keys event_id (events_collection w)) ->
     In k (keys event_id after_sync) /\ In k (keys event_id after_sweep))
  /\ (length (events_collection w) <= length after_sync)%nat
  /\ (length (events_collection w) <= length after_sweep)%nat
  /\ (NoDup (keys event_id (events_collection w)) ->
      NoDup (keys event_id after_sync) /\ NoDup (keys event_id after_sweep)).
Proof.
  intros after_sync after_sweep.
  destruct (store_grows_keeps (store_grows_sync_loop answers w))
    as (K1 & L1 & N1).
  destruct (store_grows_keeps
              (store_grows_backfill_rooms cfg cl (keys fst (rooms cl)) [] w))
    as (K2 & L2 & N2).
  split; [|split; [|split]].
  - intros k Hk. split; [now apply K1 | now apply K2].
  - exact L1.
  - exact L2.
  - intros ND. split; [now apply N1 | now apply N2].
Qed.

(** ** One cycle over several rooms *)

Lemma process_room_run entry w :
  process_room entry w = _process_events (snd entry) w.
Proof. unfold process_room. destruct (snd entry); reflexivity. Qed.

Lemma sync_docs_app a : forall b acc,
  sync_docs (a ++ b) acc
  = match sync_docs a acc with
    | Ok x => sync_docs b x
    | Raise e => Raise e
    end.
Proof.
  induction a as [|e a IH]; intros b acc; simpl; [reflexivity|].
  destruct (lacks_event_id e); [apply IH|].
  destruct (_serialize_event e); [apply IH | reflexivity].
Qed.

Lemma sync_docs_acc a : forall acc,
  sync_docs a acc
  = match sync_docs a [] with
    | Ok x => Ok (acc ++ x)
    | Raise e => Raise e
    end.
Proof.
  induction a as [|e a IH]; intros acc; simpl.
  - now rewrite app_nil_r.
  - destruct (lacks_event_id e); [apply IH|].
    destruct (_serialize_event e) as [d|x]; [|reflexivity].
    rewrite (IH (acc ++ [d])), (IH [d]).
    destruct (sync_docs a []); [|reflexivity].
    now rewrite <- app_assoc.
Qed.

Lemma for_each_app A (f : A -> M unit) a b w :
  for_each f (a ++ b) w
  = match for_each f a w with
    | (Ok _, w') => for_each f b w'
    | (Raise e, w') => (Raise e, w')
    end.
Proof.
  revert w. induction a as [|x a IH]; intros w; [reflexivity|].
  simpl. rewrite !bind_run.
  destruct (f x w) as [[u|e] w1]; [apply IH | reflexivity].
Qed.

Lemma EventCache_add_all_app a b c :
  EventCache.add_all (a ++ b) c
  = EventCache.add_all b (EventCache.add_all a c).
Proof. unfold EventCache.add_all. apply fold_left_app. Qed.

(** Rooms whose events all serialize, on a database that does not
    fail. *)
Lemma rooms_processed rooms : forall w ds,
  no_store_fault w ->
  sync_docs (concat (map snd rooms)) [] = Ok ds ->
  fst (for_each process_room rooms w) = Ok tt
  /\ events_collection (snd (for_each process_room rooms w))
     = upsert_all event_id id_eqb (events_collection w) ds
  /\ log (snd (for_each process_room rooms w))
     = log w ++ map ReplaceOne ds
  /\ cache (snd (for_each process_room rooms w))
     = EventCache.add_all (map cache_entry ds) (cache w)
  /\ no_store_fault (snd (for_each process_room rooms w)).
Proof.
  induction rooms as [|entry rooms IH]; intros w ds Hn H.
  - injection H as <-. simpl. rewrite app_nil_r. now repeat split.
  - simpl in H. rewrite sync_docs_app in H.
    destruct (sync_docs (snd entry) []) as [da|x] eqn:Ea; [|discriminate].
    rewrite sync_docs_acc in H.
    destruct (sync_docs (concat (map snd rooms)) []) as [db|x] eqn:Eb;
      [|discriminate].
    injection H as <-.
    simpl for_each. rewrite bind_run, process_room_run.
    pose proof (_process_events_effect (snd entry) w) as [Ec E].
    pose proof (_process_events_store (snd entry) Hn) as [_ Hn'].
    rewrite Ea in E. cbv zeta in E.
    rewrite (written_prefix_no_fault da _ Hn), Nat.ltb_irrefl, app_nil_r in E.
    pose proof (sync_docs_serialized_prefix (snd entry) [] Ea) as Hp.
    simpl in Hp. rewrite <- Hp in Ec.
    unfold exec, eval in *.
    destruct (_process_events (snd entry) w) as [r w1].
    cbn [fst snd] in *. destruct E as (-> & Es & El).
    destruct (IH w1 db Hn' eq_refl) as (I1 & I2 & I3 & I4 & I5).
    split; [exact I1|]. split; [|split; [|split]].
    + now rewrite I2, Es, upsert_all_app.
    + now rewrite I3, El, map_app, app_assoc.
    + now rewrite I4, Ec, map_app, EventCache_add_all_app.
    + exact I5.
Qed.

Lemma after_checkpoint_run resp w :
  after_checkpoint resp w
  = with_log
      (log w ++ Sync (sync_token w) :: save_log (Some (next_batch resp)) w)
      (with_state_file (file_after_write (Some (next_batch resp)) w)
         (with_disk_faults (tl (disk_faults w))
            (with_sync_token (Some (next_batch resp)) w))).
Proof.
  unfold after_checkpoint, exec. rewrite _save_state_run.
  unfold with_log, save_log, file_after_write. simpl.
  now rewrite <- app_assoc.
Qed.

(** When every event of a response serializes and the database does not
    fail, one cycle stores the records of all rooms, in the order the
    response lists them, as one upsert sequence, caches the same
    records, and its log is the poll, the save and one write per
    record. *)
Theorem sync_cycle_stores_timeline (resp : SyncResponse) (w : world)
  (ds : list doc) :
  no_store_fault w ->
  sync_docs (timeline_events resp) [] = Ok ds ->
  events_collection (exec (sync_iteration (SyncReturns resp)) w)
  = upsert_all event_id id_eqb (events_collection w) ds
  /\ cache (exec (sync_iteration (SyncReturns resp)) w)
     = EventCache.add_all (map cache_entry ds) (cache w)
  /\ log (exec (sync_iteration (SyncReturns resp)) w)
     = log w ++ Sync (sync_token w)
         :: save_log (Some (next_batch resp)) w ++ map ReplaceOne ds.
Proof.
  intros Hn H. unfold exec.
  rewrite sync_iteration_returns, try_except_run, after_checkpoint_run.
  match goal with
  | |- context [for_each process_room _ ?w1] =>
    destruct (@rooms_processed (rooms_join resp) w1 ds Hn H)
      as (R1 & R2 & R3 & R4 & _);
      destruct (for_each process_room (rooms_join resp) w1) as [r w2]
  end.
  cbn [fst snd] in *. subst r. cbn [snd].
  split; [exact R2|]. split; [exact R4|].
  rewrite R3. cbn [log with_log]. now rewrite <- app_assoc.
Qed.

Lemma sync_cycle_stores_timeline_witness :
  events_collection
    (exec (sync_iteration (SyncReturns one_event_response))
       (new_indexer default_config NoFile []))
  = [bare_doc "$a"].
Proof.
  refine (proj1 (@sync_cycle_stores_timeline one_event_response
    (new_indexer default_config NoFile []) [bare_doc "$a"] _ _)).
  - unfold no_store_fault. simpl. tauto.
  - reflexivity.
Defined.

(** When the serializer raises on an event of some room, the cycle
    stops there: the rooms before it are stored, that room and all
    rooms after it are not, the loop logs the error and sleeps 5, and
    the cursor stays at the response's next token, so the next poll
    does not ask for these events again. *)
Theorem sync_cycle_aborts_on_unserializable (resp : SyncResponse) (w : world)
  (before after : list (string * list raw_event)) (room_id : string)
  (events : list raw_event) (ds : list doc) (e : exn) :
  rooms_join resp = before ++ (room_id, events) :: after ->
  no_store_fault w ->
  sync_docs (concat (map snd before)) [] = Ok ds ->
  sync_docs events [] = Raise e ->
  events_collection (exec (sync_iteration (SyncReturns resp)) w)
  = upsert_all event_id id_eqb (events_collection w) ds
  /\ log (exec (sync_iteration (SyncReturns resp)) w)
     = log w ++ Sync (sync_token w)
         :: save_log (Some (next_batch resp)) w ++ map ReplaceOne ds
         ++ [LogError "Error in sync loop"; Sleep (5 # 1)]
  /\ sync_token (exec (sync_iteration (SyncReturns resp)) w)
     = Some (next_batch resp).
Proof.
  intros Hr Hn Hb He.
  split; [|split; [|apply (sync_iteration_sync_token (SyncReturns resp))]];
    unfold exec;
    rewrite sync_iteration_returns, try_except_run, after_checkpoint_run, Hr,
      for_each_app;
    match goal with
    | |- context [for_each process_room before ?w1] =>
      destruct (@rooms_processed before w1 ds Hn Hb)
        as (R1 & R2 & R3 & _ & _);
        destruct (for_each process_room before w1) as [r w2]
    end;
    cbn [fst snd] in *; subst r;
    simpl for_each; rewrite bind_run, process_room_run;
    change (snd (room_id, events)) with events;
    pose proof (@_process_events_raises events w2 e He)
      as (U1 & U2 & U3 & _);
    unfold exec, eval in *;
    destruct (_process_events events w2) as [r w3];
    cbn [fst snd] in *; subst r; cbv beta iota;
    unfold sync_handler, log_error, sleep; cbv beta; rewrite bind_emit;
    unfold emit, modify; cbn [fst snd events_collection log with_log].
  - now rewrite U2, R2.
  - rewrite U3, R3. cbn [log with_log].
    now rewrite <- !app_assoc.
Qed.

Lemma sync_cycle_aborts_on_unserializable_witness :
  events_collection
    (exec (sync_iteration
             (SyncReturns
                {| next_batch := "s1";
                   rooms_join :=
                     [("!A", [bare_event (Has "$a")]);
                      ("!B", [bare_event (Has "$b");
                              null_timestamp_event "$c"]);
                      ("!C", [bare_event (Has "$d")])] |}))
       (new_indexer default_config NoFile []))
  = [bare_doc "$a"].
Proof.
  refine (proj1 (@sync_cycle_aborts_on_unserializable
    {| next_batch := "s1";
       rooms_join :=
         [("!A", [bare_event (Has "$a")]);
          ("!B", [bare_event (Has "$b"); null_timestamp_event "$c"]);
          ("!C", [bare_event (Has "$d")])] |}
    (new_indexer default_config NoFile [])
    [("!A", [bare_event (Has "$a")])]
    [("!C", [bare_event (Has "$d")])]
    "!B" [bare_event (Has "$b"); null_timestamp_event "$c"]
    [bare_doc "$a"] TypeError _ _ _ _)).
  - reflexivity.
  - unfold no_store_fault. simpl. tauto.
  - reflexivity.
  - reflexivity.
Defined.

(** ** How far a walk goes *)

Lemma count_requests_app l1 l2 :
  count_requests (l1 ++ l2) = (count_requests l1 + count_requests l2)%nat.
Proof. unfold count_requests. now rewrite filter_app, length_app. Qed.

Lemma count_requests_none l :
  Forall not_room_messages l -> count_requests l = 0%nat.
Proof.
  unfold count_requests. induction 1 as [|a l Ha _ IH]; [reflexivity|].
  simpl. unfold not_room_messages in Ha. now rewrite Ha.
Qed.

Lemma log_grows_replace_one_quiet d :
  respects (log_grows not_room_messages) (replace_one d).
Proof.
  intros w. rewrite replace_one_run.
  destruct (store_faults w) as [|[|] fs]; simpl.
  - exists [ReplaceOne d]. split; [reflexivity | now repeat constructor].
  - exists []. split; [simpl; now rewrite app_nil_r | constructor].
  - exists [ReplaceOne d]. split; [reflexivity | now repeat constructor].
Qed.

Lemma log_grows_store_batch_quiet ds cnt :
  respects (log_grows not_room_messages) (store_batch ds cnt).
Proof.
  unfold store_batch. pose proof log_grows_replace_one_quiet.
  destruct ds; log_grows_tac; auto.
Qed.

Lemma range_len_ceiling stop step n :
  0 < step ->
  range_len stop step = Ok n ->
  Z.of_nat n * step < Z.max stop 0 + step.
Proof.
  intros Hs. unfold range_len.
  destruct (Z.eqb_spec step 0) as [E0|N0]; [lia|].
  destruct (Z.ltb_spec 0 step) as [Lt|Ge]; [|lia].
  intros Hn. injection Hn as <-.
  destruct (Z.ltb_spec 0 stop) as [Ps|Ns]; [|simpl; lia].
  assert (Hq : 0 <= (stop - 1) / step) by (apply Z.div_pos; lia).
  rewrite Z2Nat.id by lia.
  pose proof (Z.mul_div_le (stop - 1) step Hs). nia.
Qed.

Section WalkLength.
Variable cfg : config.
Variable cl : client.

Lemma backfill_batches_requests n : forall room_id tok cnt w,
  exists l,
    log (snd (backfill_batches cfg cl n room_id tok cnt w)) = log w ++ l
    /\ (count_requests l <= n)%nat.
Proof.
  induction n as [|n IH]; intros room_id tok cnt w.
  - exists []. simpl. rewrite app_nil_r. split; [reflexivity | apply le_n].
  - simpl. destruct (truthy_token tok); simpl.
    2: { exists []. rewrite app_nil_r. split; [reflexivity | apply Nat.le_0_l]. }
    rewrite bind_emit.
    set (rm := RoomMessages room_id _ (backfill_batch_size cfg)).
    set (w0 := with_log (log w ++ [rm]) w).
    assert (Hone : exists l, log w0 = log w ++ l
                             /\ (count_requests l <= S n)%nat).
    { exists [rm]. split; [reflexivity|]. unfold count_requests. simpl. lia. }
    destruct (room_messages cl room_id _ (backfill_batch_size cfg))
      as [e|chunk next]; [exact Hone|].
    destruct (no_chunk chunk); [exact Hone|].
    rewrite bind_lift.
    destruct (chunk_docs room_id (chunk_of chunk) []) as [ds|x];
      [|exact Hone].
    rewrite bind_run.
    destruct (log_grows_store_batch_quiet ds cnt w0) as [l1 [L1 F1]].
    destruct (store_batch ds cnt w0) as [[c|x] w1]; cbn [fst snd] in *.
    + destruct (hasattr next).
      * unfold sleep. rewrite bind_emit.
        destruct (IH room_id (getattr next None) c
                    (with_log (log w1 ++ [Sleep (1 # 10)]) w1))
          as [l2 [L2 C2]].
        exists ([rm] ++ l1 ++ [Sleep (1 # 10)] ++ l2). split.
        -- rewrite L2. cbn [log with_log]. rewrite L1. unfold w0.
           cbn [log with_log]. now rewrite <- !app_assoc.
        -- rewrite !count_requests_app, (count_requests_none F1).
           unfold count_requests at 1 2. simpl. lia.
      * exists ([rm] ++ l1). split.
        -- simpl. rewrite L1. unfold w0. cbn [log with_log].
           now rewrite <- app_assoc.
        -- rewrite count_requests_app, (count_requests_none F1).
           unfold count_requests. simpl. lia.
    + exists ([rm] ++ l1). split.
      * rewrite L1. unfold w0. cbn [log with_log]. now rewrite <- app_assoc.
      * rewrite count_requests_app, (count_requests_none F1).
        unfold count_requests. simpl. lia.
Qed.

Lemma backfill_room_requests room_id limit w :
  exists l,
    log (exec (backfill_room cfg cl room_id limit) w) = log w ++ l
    /\ (count_requests l
        <= match range_len limit (backfill_batch_size cfg) with
           | Ok n => n
           | Raise _ => 0
           end)%nat.
Proof.
  unfold exec, backfill_room, backfill_room_body.
  rewrite try_except_run.
  destruct (find_key fst String.eqb room_id (rooms cl)) as [[k r]|].
  - rewrite bind_lift.
    destruct (range_len limit (backfill_batch_size cfg)) as [n|x].
    + destruct (backfill_batches_requests n room_id (prev_batch r) 0 w)
        as [l [L C]].
      destruct (backfill_batches cfg cl n room_id (prev_batch r) 0 w)
        as [[c|x] w1]; cbn [fst snd] in *.
      * exists l. now split.
      * exists (l ++ [LogError "Error backfilling room"]). split.
        -- simpl. rewrite L. now rewrite <- app_assoc.
        -- rewrite count_requests_app. unfold count_requests at 2. simpl. lia.
    + exists [LogError "Error backfilling room"]. split; [reflexivity|].
      apply le_n.
  - exists [LogWarning "Room not found in client"]. split; [reflexivity|].
    unfold count_requests. simpl. apply Nat.le_0_l.
Qed.

Lemma backfill_rooms_requests ids : forall results w,
  exists l,
    log (snd (backfill_rooms cfg cl ids results w)) = log w ++ l
    /\ (count_requests l
        <= length ids
           * match range_len 1000 (backfill_batch_size cfg) with
             | Ok n => n
             | Raise _ => 0
             end)%nat.
Proof.
  induction ids as [|i ids IH]; intros results w.
  - exists []. simpl. rewrite app_nil_r. split; [reflexivity | apply le_n].
  - destruct (backfill_rooms_cons cfg cl i ids results w)
      as (c & w1 & Hc & E).
    rewrite E.
    destruct (backfill_room_requests i 1000 w) as [l1 [L1 C1]].
    unfold exec in L1. rewrite Hc in L1. cbn [snd] in L1.
    match goal with
    | |- context [backfill_rooms cfg cl ids ?res ?w2] =>
      destruct (IH res w2) as [l2 [L2 C2]]
    end.
    exists (l1 ++ [Sleep (1 # 2)] ++ l2). split.
    + rewrite L2. cbn [log with_log]. rewrite L1. now rewrite <- !app_assoc.
    + rewrite !count_requests_app. unfold count_requests at 2. simpl.
      simpl in C2. lia.
Qed.

End WalkLength.

(** With a positive batch size, [backfill_room] makes at most
    ceil(limit / batch size) history requests, none at all when the
    limit is zero or negative, and the sweep over all rooms, which walks
    each room with the limit 1000, makes at most that many per joined
    room. *)
Theorem backfill_request_bound (cfg : config) (cl : client)
  (room_id : string) (limit : Z) (w : world) :
  0 < backfill_batch_size cfg ->
  (exists l,
     log (exec (backfill_room cfg cl room_id limit) w) = log w ++ l
     /\ Z.of_nat (count_requests l) * backfill_batch_size cfg
        < Z.max limit 0 + backfill_batch_size cfg)
  /\ (exists l n,
        log (exec (backfill_all_rooms cfg cl) w) = log w ++ l
        /\ (count_requests l <= length (rooms cl) * n)%nat
        /\ Z.of_nat n * backfill_batch_size cfg
           < 1000 + backfill_batch_size cfg).
Proof.
  intros Hb. split.
  - destruct (backfill_room_requests cfg cl room_id limit w) as [l [L C]].
    exists l. split; [exact L|].
    destruct (range_len limit (backfill_batch_size cfg)) as [n|x] eqn:E.
    + pose proof (range_len_ceiling limit Hb E). nia.
    + simpl in C. lia.
  - destruct (backfill_rooms_requests cfg cl (keys fst (rooms cl)) [] w)
      as [l [L C]].
    unfold keys in C. rewrite length_map in C.
    destruct (range_len 1000 (backfill_batch_size cfg)) as [n|x] eqn:E.
    + exists l, n. split; [exact L|]. split; [exact C|].
      pose proof (range_len_ceiling 1000 Hb E). lia.
    + exists l, 0%nat. split; [exact L|]. split; [exact C | lia].
Qed.

Lemma backfill_request_bound_witness :
  exists l,
    log (exec (backfill_room default_config two_rooms_client "!B" 1000)
           (new_indexer default_config NoFile []))
    = log (new_indexer default_config NoFile []) ++ l
    /\ Z.of_nat (count_requests l) * 100 < Z.max 1000 0 + 100.
Proof.
  refine (proj1 (@backfill_request_bound default_config two_rooms_client
    "!B" 1000 (new_indexer default_config NoFile []) _)).
  reflexivity.
Defined.

(** ** What a walk reports *)



(** The walks that never reach the server.  A room the client does not
    know gives 0 and a warning; a room without a truthy [prev_batch]
    gives 0 and no message at all, as does a limit of zero or less with
    a positive batch size and a negative batch size with a limit of zero
    or more; a batch size of zero makes [range] raise, which is caught
    and logged as a failure of the room.  In none of these cases is a
    request made or the collection touched. *)
Theorem backfill_room_without_request (cfg : config) (cl : client)
  (room_id : string) (limit : Z) (w : world) :
  (find_key fst String.eqb room_id (rooms cl) = None ->
   backfill_room cfg cl room_id limit w
   = (Ok 0, with_log (log w ++ [LogWarning "Room not found in client"]) w))
  /\ (forall k r,
        find_key fst String.eqb room_id (rooms cl) = Some (k, r) ->
        (backfill_batch_size cfg = 0 ->
         backfill_room cfg cl room_id limit w
         = (Ok 0,
            with_log (log w ++ [LogError "Error backfilling room"]) w))
        /\ (backfill_batch_size cfg <> 0 ->
            truthy_token (prev_batch r) = false
            \/ (0 < backfill_batch_size cfg /\ limit <= 0)
            \/ (backfill_batch_size cfg < 0 /\ 0 <= limit) ->
            backfill_room cfg cl room_id limit w = (Ok 0, w))).
Proof.
  split.
  - intros H. unfold backfill_room, backfill_room_body.
    now rewrite try_except_run, H.
  - intros k r H. split.
    + intros Hz. unfold backfill_room, backfill_room_body, range_len.
      rewrite try_except_run, H, bind_lift, Hz. reflexivity.
    + intros Hnz Hc. unfold backfill_room, backfill_room_body, range_len.
      rewrite try_except_run, H, bind_lift.
      destruct (Z.eqb_spec (backfill_batch_size cfg) 0); [contradiction|].
      destruct (Z.ltb_spec 0 (backfill_batch_size cfg)) as [Pos|Neg].
      * destruct (Z.ltb_spec 0 limit) as [Pl|Nl]; [|reflexivity].
        destruct Hc as [Ht|[[_ Hl]|[Hb _]]]; try lia.
        destruct (Z.to_nat _); [reflexivity|].
        now rewrite backfill_batches_no_token.
      * destruct (Z.ltb_spec limit 0) as [Nl|Pl]; [|reflexivity].
        destruct Hc as [Ht|[[Hb _]|[_ Hl]]]; try lia.
        destruct (Z.to_nat _); [reflexivity|].
        now rewrite backfill_batches_no_token.
Qed.

(** ** The records of the two paths *)

(** A record of the sync path always has a dict as content and is never
    marked as backfilled.  For a text message the content is exactly the
    pair of body and msgtype, whatever the event's own content attribute
    holds; for any other event it is the content attribute when that is
    a dict and the empty dict otherwise.  The identifier, room, sender,
    type and origin_server_ts are the event's attributes, [None] where
    the attribute is missing. *)
Theorem _serialize_event_record (event : raw_event) (d : doc) :
  _serialize_event event = Ok d ->
  isinstance_dict (content d) = true
  /\ backfilled d = false
  /\ (ev_is_text event = true ->
      exists body msgtype,
        attribute (ev_body event) = Ok body
        /\ attribute (ev_msgtype event) = Ok msgtype
        /\ content d
           = JDict [("body", json_of_str body);
                    ("msgtype", json_of_str msgtype)])
  /\ (ev_is_text event = false ->
      content d
      = match ev_content event with
        | Has (JDict kvs) => JDict kvs
        | _ => JDict []
        end)
  /\ event_id d = getattr (ev_event_id event) None
  /\ room_id d = getattr (ev_room_id event) None
  /\ sender d = getattr (ev_sender event) None
  /\ type d = getattr (ev_type event) None
  /\ origin_server_ts d = getattr (ev_origin_server_ts event) None.
Proof.
  unfold _serialize_event.
  destruct (int_timestamp event) as [ts|x]; [|discriminate].
  destruct (ev_is_text event).
  - unfold text_content.
    destruct (attribute (ev_body event)) as [body|x]; [|discriminate].
    destruct (attribute (ev_msgtype event)) as [msgtype|x]; [|discriminate].
    intros H. injection H as <-. simpl.
    repeat split; try discriminate. intros _. now exists body, msgtype.
  - destruct (ev_content event) as [| |c]; simpl;
      try destruct c; intros H; injection H as <-; simpl;
      repeat split; discriminate.
Qed.

Lemma _serialize_event_record_witness :
  isinstance_dict (content (bare_doc "$a")) = true.
Proof.
  refine (proj1 (@_serialize_event_record (bare_event (Has "$a"))
                   (bare_doc "$a") _)).
  reflexivity.
Defined.

Lemma chunk_docs_shape room chunk : forall acc ds,
  Forall (fun d => backfilled d = true /\ room_id d = Some room) acc ->
  chunk_docs room chunk acc = Ok ds ->
  Forall (fun d => backfilled d = true /\ room_id d = Some room) ds
  /\ length ds
     = (length acc + length (filter carries_event_id chunk))%nat.
Proof.
  induction chunk as [|e es IH]; intros acc ds Hacc; simpl.
  - intros H. injection H as <-. split; [exact Hacc | lia].
  - unfold carries_event_id at 1.
    destruct (lacks_event_id e); simpl; [now apply IH|].
    unfold backfill_doc at 1.
    destruct (int_timestamp e) as [ts|x]; [|discriminate].
    intros H. apply IH in H.
    + rewrite length_app in H. simpl in H. destruct H as [H1 H2].
      split; [exact H1 | lia].
    + apply Forall_app. split; [exact Hacc|]. now repeat constructor.
Qed.



(** ** The two paths on one collection *)

Lemma find_key_In A K (key : A -> K) (K_eqb : K -> K -> bool) k a l :
  find_key key K_eqb k l = Some a -> In a l.
Proof.
  induction l as [|x l IH]; simpl; [discriminate|].
  destruct (K_eqb (key x) k).
  - intros H. injection H as <-. now left.
  - intros H. right. now apply IH.
Qed.

Lemma sync_docs_not_backfilled events : forall acc ds,
  Forall (fun d => backfilled d = false) acc ->
  sync_docs events acc = Ok ds ->
  Forall (fun d => backfilled d = false) ds.
Proof.
  induction events as [|e es IH]; intros acc ds Hacc; simpl.
  - intros H. now injection H as <-.
  - destruct (lacks_event_id e); [now apply IH|].
    destruct (_serialize_event e) as [d|x] eqn:E; [|discriminate].
    apply IH. apply Forall_app. split; [exact Hacc|].
    constructor; [|constructor].
    unfold _serialize_event in E.
    destruct (int_timestamp e); [|discriminate].
    destruct (ev_is_text e).
    + destruct (text_content e); [|discriminate]. now injection E as <-.
    + destruct (ev_content e); simpl in E; now injection E as <-.
Qed.

Lemma walked_docs_backfilled cfg cl n : forall room tok,
  Forall (fun d => backfilled d = true /\ room_id d = Some room)
    (walked_docs cfg cl n room tok).
Proof.
  induction n as [|n IH]; intros room tok; simpl; [constructor|].
  destruct (truthy_token tok); simpl; [|constructor].
  destruct (room_messages cl room _ (backfill_batch_size cfg))
    as [e|chunk next]; [constructor|].
  destruct (no_chunk chunk); [constructor|].
  destruct (chunk_docs room (chunk_of chunk) []) as [ds|x] eqn:E;
    [|constructor].
  apply Forall_app. split.
  - exact (proj1 (@chunk_docs_shape room (chunk_of chunk) [] ds
                    (Forall_nil _) E)).
  - destruct (hasattr next); [apply IH | constructor].
Qed.

(** The sync path and the backfill path write to the same collection
    under the same key, so for an event both of them see, the record in
    the collection is the one of the path that ran last.  After a
    backfill of the room the record is the backfill record, marked as
    backfilled and filed under the room that was walked; after a sync
    batch it is the sync record, and the mark is gone. *)
Theorem last_path_wins (cfg : config) (cl : client) (room : string)
  (limit : Z) (events : list raw_event) (ds : list doc) (w : world)
  (k : option string) (d : doc) :
  no_store_fault w ->
  sync_docs events [] = Ok ds ->
  (find_key event_id id_eqb k (rev (room_docs cfg cl room limit)) = Some d ->
   find_key event_id id_eqb k
     (events_collection
        (exec (backfill_room cfg cl room limit)
           (exec (_process_events events) w)))
   = Some d
   /\ backfilled d = true
   /\ room_id d = Some room)
  /\ (find_key event_id id_eqb k (rev ds) = Some d ->
      find_key event_id id_eqb k
        (events_collection
           (exec (_process_events events)
              (exec (backfill_room cfg cl room limit) w)))
      = Some d
      /\ backfilled d = false).
Proof.
  intros Hn Hs. split; intros Hf.
  - destruct (_process_events_store events Hn) as [_ Hn1].
    destruct (backfill_room_store cfg cl room limit Hn1) as [E _].
    rewrite E, (find_key_upsert_all event_id id_eqb id_eqb_spec), Hf.
    split; [reflexivity|].
    apply find_key_In, in_rev in Hf.
    assert (F : Forall (fun d => backfilled d = true /\ room_id d = Some room)
                  (room_docs cfg cl room limit)).
    { unfold room_docs.
      destruct (find_key fst String.eqb room (rooms cl)) as [[r0 r]|];
        [|constructor].
      destruct (range_len limit (backfill_batch_size cfg));
        [apply walked_docs_backfilled | constructor]. }
    rewrite Forall_forall in F. exact (F d Hf).
  - destruct (backfill_room_store cfg cl room limit Hn) as [_ Hn1].
    destruct (_process_events_store events Hn1) as [E _].
    rewrite Hs in E.
    rewrite E, (find_key_upsert_all event_id id_eqb id_eqb_spec), Hf.
    split; [reflexivity|].
    apply find_key_In, in_rev in Hf.
    pose proof (@sync_docs_not_backfilled events [] ds (Forall_nil _) Hs) as F.
    rewrite Forall_forall in F. exact (F d Hf).
Qed.

Lemma last_path_wins_witness :
  find_key event_id id_eqb (Some "$b1")
    (events_collection
       (exec (backfill_room default_config two_rooms_client "!B" 1000)
          (exec (_process_events [bare_event (Has "$b1")])
             (new_indexer default_config NoFile []))))
  = Some (bare_backfill_doc "!B" "$b1")
  /\ backfilled (bare_backfill_doc "!B" "$b1") = true
  /\ room_id (bare_backfill_doc "!B" "$b1") = Some "!B".
Proof.
  refine (proj1 (@last_path_wins default_config two_rooms_client "!B" 1000
    [bare_event (Has "$b1")] [bare_doc "$b1"]
    (new_indexer default_config NoFile []) (Some "$b1")
    (bare_backfill_doc "!B" "$b1") _ _) _).
  - unfold no_store_fault. simpl. tauto.
  - reflexivity.
  - reflexivity.
Defined.

(** ** Configuration from the environment *)


(** ** Starting up *)




(** Once connected, the backfill sweeps the rooms, and the handler of
    [backfill_all] is never entered. *)
Lemma backfill_started cfg cl w :
  try_except (backfill_all_rooms cfg cl ;; ret tt)
    (fun _ => log_error "Backfill failed") w
  = (Ok tt, exec (backfill_all_rooms cfg cl) w).
Proof.
  rewrite try_except_run, bind_run. unfold exec, backfill_all_rooms.
  destruct (@backfill_rooms_total cfg cl (keys fst (rooms cl)) [] w)
    as [results H].
  unfold eval in H.
  destruct (backfill_rooms cfg cl (keys fst (rooms cl)) [] w) as [[r|e] w1];
    simpl in H; [reflexivity | discriminate].
Qed.

Lemma with_log_same w : with_log (log w) w = w.
Proof. now destruct w. Qed.


Lemma backfill_stop_run closes b w :
  backfill_stop closes b w
  = (Ok tt,
     with_log (log w ++ close_warnings "Error closing client"
                          "Error closing MongoDB" closes b) w).
Proof.
  unfold backfill_stop, close_warnings, log_warning.
  destruct w, closes as [[|] [|]], b;
    unfold bind, emit, modify, ret, with_log; simpl;
    rewrite <- ?app_assoc, ?app_nil_r; reflexivity.
Qed.

Lemma count_requests_close_warnings cm mm closes b :
  count_requests (close_warnings cm mm closes b) = 0%nat.
Proof. now destruct closes as [[|] [|]], b. Qed.



(** ** The cache during a run *)

Lemma cache_grows_refl w : cache_grows w w.
Proof. exists []. reflexivity. Qed.

Lemma cache_grows_trans a b c :
  cache_grows a b -> cache_grows b c -> cache_grows a c.
Proof.
  intros [e1 H1] [e2 H2]. exists (e1 ++ e2).
  now rewrite EventCache_add_all_app, <- H1.
Qed.

Lemma cache_grows_unchanged A (m : M A) :
  respects (unchanged cache) m -> respects cache_grows m.
Proof. intros H w. exists []. apply H. Qed.

Lemma cache_grows__process_events events :
  respects cache_grows (_process_events events).
Proof.
  intros w. eexists. apply (proj1 (_process_events_effect events w)).
Qed.

Ltac cache_grows_tac :=
  frame_with ltac:(idtac; intros ?; apply cache_grows_refl)
             ltac:(idtac; intros ? ? ?; apply cache_grows_trans);
  try (apply cache_grows_unchanged; solve [frame_leaf]).

Lemma cache_grows_sync_loop answers : respects cache_grows (sync_loop answers).
Proof.
  unfold sync_loop, sync_iteration, _save_state, process_room.
  pose proof cache_grows__process_events.
  cache_grows_tac; auto.
Qed.

Lemma reachable_add_all entries : forall c,
  EventCache.reachable c ->
  EventCache.reachable (EventCache.add_all entries c).
Proof.
  induction entries as [|e es IH]; intros c R; [exact R|].
  simpl. apply IH. now apply EventCache.reach_add.
Qed.

(** Through any run of the sync loop the indexer's cache stays a
    well-formed cache of the configured size: its capacity is the
    configured [cache_size], it holds at most that many records, and
    no id twice.  Under a configuration read from the environment that
    is at most 10000 records. *)
Theorem sync_loop_cache_bounded (cfg : config) (file : file_content)
  (stored : list doc) (answers : list sync_outcome) :
  let w := exec (sync_loop answers)
             (exec _load_state (new_indexer cfg file stored)) in
  EventCache.max_size (cache w) = cache_size cfg
  /\ EventCache.size (cache w) <= Z.max 0 (cache_size cfg)
  /\ NoDup (EventCache.ids (cache w))
  /\ (forall env home,
        cfg = ingestion_config (Config.from_env env home) ->
        EventCache.size (cache w) <= 10000).
Proof.
  intros w.
  assert (C0 : cache (exec _load_state (new_indexer cfg file stored))
               = EventCache.init (cache_size cfg)).
  { unfold exec, _load_state. rewrite bind_gets. simpl.
    destruct file; reflexivity. }
  destruct (cache_grows_sync_loop answers
              (exec _load_state (new_indexer cfg file stored)))
    as [entries E].
  change (cache w = EventCache.add_all entries
            (cache (exec _load_state (new_indexer cfg file stored)))) in E.
  rewrite C0 in E.
  assert (R : EventCache.reachable (cache w)).
  { rewrite E. apply reachable_add_all, EventCache.reach_init. }
  assert (Hm : EventCache.max_size (cache w) = cache_size cfg).
  { rewrite E. apply EventCacheFacts.max_size_add_all. }
  destruct (reachable_invariant R) as (ND & B & _).
  rewrite Hm in B.
  split; [exact Hm|]. split; [exact B|]. split; [exact ND|].
  intros env home ->. simpl in B. lia.
Qed.

(** ** The backfill program under its configuration *)

(** Run as a program, the backfill takes its configuration from the
    environment, where the batch size cannot be set: whatever the
    environment holds and however the login and the closing go, a sweep
    makes at most ten history requests per joined room and the walk of
    a single room at most ten, none when the program fails to connect;
    neither ever removes a stored record. *)
Theorem backfill_request_budget (env : Config.environ) (home : string)
  (login : login_outcome) (mongo_ok : bool) (cl : client) (room : string)
  (closes : close_outcome) (w : world) :
  let c := Config.from_env env home in
  let all := exec (backfill_all c login mongo_ok cl closes) w in
  let one := exec (backfill_single_room c login mongo_ok cl room closes) w in
  (exists l,
     log all = log w ++ l
     /\ (count_requests l <= length (rooms cl) * 10)%nat
     /\ (mongo_ok = false ->
         count_requests l = 0%nat
         /\ events_collection all = events_collection w))
  /\ (exists l,
        log one = log w ++ l
        /\ (count_requests l <= 10)%nat
        /\ (mongo_ok = false ->
            count_requests l = 0%nat
            /\ events_collection one = events_collection w))
  /\ (forall k,
        In k (keys event_id (events_collection w)) ->
        In k (keys event_id (events_collection all))
        /\ In k (keys event_id (events_collection one))).
Proof.
  intros c all one. subst c all one.
  unfold exec, backfill_all, backfill_single_room.
  change (ingestion_config (Config.from_env env home)) with default_config.
  destruct (backfill_connect (Config.matrix (Config.from_env env home))
              login mongo_ok) as [err|m] eqn:E; cbn [connected].
  - unfold log_error. rewrite bind_emit, backfill_stop_run.
    cbn [snd log with_log events_collection]. rewrite <- app_assoc.
    assert (C : count_requests
                  ([LogError "Backfill failed"]
                   ++ close_warnings "Error closing client"
                        "Error closing MongoDB" closes false) = 0%nat).
    { rewrite count_requests_app, count_requests_close_warnings.
      reflexivity. }
    split; [|split].
    + eexists. split; [reflexivity|]. rewrite C.
      split; [apply Nat.le_0_l | now split].
    + eexists. split; [reflexivity|]. rewrite C.
      split; [apply Nat.le_0_l | now split].
    + intros k H. now split.
  - assert (Hm : mongo_ok = true).
    { unfold backfill_connect in E.
      destruct (backfill_login _ login); [discriminate|].
      now destruct mongo_ok. }
    rewrite !bind_run, backfill_started.
    assert (S1 : try_except
                   (backfill_room default_config cl room 1000 ;; ret tt)
                   (fun _ => log_error "Backfill failed") w
                 = (Ok tt, exec (backfill_room default_config cl room 1000) w)).
    { rewrite try_except_run, bind_run. unfold exec.
      destruct (backfill_room_total default_config cl room 1000 w) as [n H].
      unfold eval in H.
      destruct (backfill_room default_config cl room 1000 w) as [[r|e] w1];
        simpl in H; [reflexivity | discriminate]. }
    rewrite S1, !backfill_stop_run. cbn [snd log with_log events_collection].
    unfold exec, backfill_all_rooms.
    split; [|split].
    + destruct (backfill_rooms_requests default_config cl
                  (keys fst (rooms cl)) [] w) as [l [L C]].
      eexists. rewrite L, <- app_assoc. split; [reflexivity|].
      rewrite count_requests_app, count_requests_close_warnings, Nat.add_0_r.
      unfold keys in C. rewrite length_map in C.
      split; [exact C|]. intros H. congruence.
    + destruct (backfill_room_requests default_config cl room 1000 w)
        as [l [L C]].
      unfold exec in L.
      eexists. rewrite L, <- app_assoc. split; [reflexivity|].
      rewrite count_requests_app, count_requests_close_warnings, Nat.add_0_r.
      split; [exact C|]. intros H. congruence.
    + intros k H. split.
      * exact (proj1 (store_grows_keeps
                        (store_grows_backfill_rooms default_config cl _ [] w))
                 k H).
      * exact (proj1 (store_grows_keeps
                        (store_grows_backfill_room default_config cl
                           room 1000 w))
                 k H).
Qed.
